(** * picinplace: the e-ink picture frame server (server.py)

    A shallow embedding of the stateful core of [server.py]: the bounded
    image list with eviction of the oldest entry, the cycling thread and its
    start/stop control, the configuration dictionary, the upload handler and
    the resize-and-crop arithmetic.

    Conventions of the embedding:
    - a [Path] below [UPLOAD_DIR] is represented by its file name ([Path.name]);
      the directory [uploaded_images] and its sub-directory [thumbnails] are
      two finite sets of file names;
    - a Python [float] is represented by the rational number it denotes; an
      arithmetic operation on floats is the exact operation followed by
      rounding to the nearest number with a 53-bit significand, ties to even
      (IEEE 754 binary64 without exponent limits);
    - a raised exception is a [None] result, or the [inr] of the decoder;
      the handlers turn it into an HTTP 400 response as the source does;
    - writing a file always succeeds, and deleting one fails only when the
      file is missing;
    - [display_image] swallows every error of the panel, so a render is
      recorded as the call itself, in the log [displayed]. *)

From Stdlib Require Import ZArith QArith Qround Qpower Lqa Lia String Ascii.
From stdpp Require Import gmap strings list sorting.

Local Open Scope string_scope.
Local Open Scope list_scope.
Local Open Scope Z_scope.

(** ** Python values that the program manipulates *)

Module Py.

(** [str.lower()] on ASCII text. *)
Definition lower_ascii (c : ascii) : ascii :=
  let n := nat_of_ascii c in
  if ((65 <=? n)%nat && (n <=? 90)%nat)%bool then ascii_of_nat (n + 32) else c.

Fixpoint lower (s : string) : string :=
  match s with
  | EmptyString => EmptyString
  | String c s' => String (lower_ascii c) (lower s')
  end.

(** [s.endswith(suf)]. *)
Definition endswith (s suf : string) : bool :=
  ((String.length suf <=? String.length s)%nat
   && String.eqb (substring (String.length s - String.length suf)
                            (String.length suf) s) suf)%bool.

(** [s.endswith((a, b))] with a tuple of suffixes. *)
Definition endswith_any (s : string) (sufs : list string) : bool :=
  existsb (endswith s) sufs.

(** [str(n).zfill(w)] restricted to the low [w] decimal digits, as
    [strftime] prints the fields of a date. *)
Definition digit_char (d : Z) : ascii := ascii_of_nat (48 + Z.to_nat d).

Fixpoint zfill (w : nat) (n : Z) : string :=
  match w with
  | O => EmptyString
  | S w' => zfill w' (n / 10) +:+ String (digit_char (n mod 10)) EmptyString
  end.

(** [l[i]] on a list: negative indices count from the end, anything out
    of range raises [IndexError]. *)
Definition getitem {A} (l : list A) (i : Z) : option A :=
  let n := Z.of_nat (length l) in
  if 0 <=? i then l !! Z.to_nat i
  else if - n <=? i then l !! Z.to_nat (n + i)
  else None.

(** [l[-m:]]: the last [m] elements for positive [m]; [l[0:]], the whole
    list, for [m = 0]; [l[k:]] for [m = -k] negative. *)
Definition last_slice {A} (m : Z) (l : list A) : list A :=
  if 0 <? m then drop (length l - Z.to_nat m) l
  else drop (Z.to_nat (- m)) l.

(** [sorted(l, key=...)]: a stable sort, here by insertion. *)
Fixpoint insert_by {A} (key : A -> Z) (x : A) (l : list A) : list A :=
  match l with
  | [] => [x]
  | y :: l' => if key x <=? key y then x :: y :: l' else y :: insert_by key x l'
  end.

Definition sorted {A} (key : A -> Z) (l : list A) : list A :=
  foldr (insert_by key) [] l.

End Py.

(** ** pathlib and datetime *)

(** [Path.suffix] of a file name: the part from the last dot on, unless that
    dot is the first or the last character. *)
Fixpoint rfind_dot (s : string) (pos : nat) (found : option nat) : option nat :=
  match s with
  | EmptyString => found
  | String c s' =>
      rfind_dot s' (S pos) (if Ascii.eqb c "." then Some pos else found)
  end.

Definition Path_suffix (name : string) : string :=
  match rfind_dot name 0 None with
  | Some i =>
      if ((0 <? i)%nat && (i <? String.length name - 1)%nat)%bool
      then substring i (String.length name - i) name
      else ""
  | None => ""
  end.

Record datetime := {
  year : Z; month : Z; day : Z;
  hour : Z; minute : Z; second : Z; microsecond : Z
}.

(** [now.strftime("%Y%m%d_%H%M%S")]: the microseconds are not printed. *)
Definition strftime (now : datetime) : string :=
  Py.zfill 4 (year now) +:+ Py.zfill 2 (month now) +:+ Py.zfill 2 (day now)
  +:+ "_" +:+ Py.zfill 2 (hour now) +:+ Py.zfill 2 (minute now)
  +:+ Py.zfill 2 (second now).

(** ** JSON values of the configuration dictionary *)

#[warnings="-register-all"]
Inductive json :=
| JNull
| JBool (b : bool)
| JInt (z : Z)
| JFloat (q : Q)
| JStr (s : string)
| JList (l : list json).

(** A value usable where Python wants an integer ([int] or [bool]). *)
Definition as_int (v : json) : option Z :=
  match v with
  | JInt z => Some z
  | JBool b => Some (if b then 1 else 0)
  | _ => None
  end.

(** [n > v] for an [int] [n]: defined against numbers, a [TypeError]
    against anything else. *)
Definition int_gt (n : Z) (v : json) : option bool :=
  match v with
  | JInt z => Some (z <? n)
  | JBool b => Some ((if b then 1 else 0) <? n)
  | JFloat q => Some (negb (Qle_bool (inject_Z n) q))
  | _ => None
  end.

(** The module-level [CONFIG] as the source initialises it. *)
Definition default_CONFIG : gmap string json :=
  <["max_images" := JInt 10]>
  (<["cycle_interval" := JInt 600]>
  (<["display_size" := JList [JInt 800; JInt 480]]>
  (<["saturation" := JFloat (1 # 2)]> ∅))).

(** ** Floating point, as the arithmetic of [resize_and_crop_image] uses it *)

Module Float.

Definition pow2 (k : Z) : Q := (2 ^ k)%Q.

(** The binary exponent of a positive rational: [2^k <= x < 2^(k+1)]. *)
Definition ilog2 (x : Q) : Z :=
  let k := Z.log2 (Qnum x) - Z.log2 (Zpos (Qden x)) in
  if Qle_bool (pow2 k) x then k else k - 1.

(** Nearest integer, ties to the even one. *)
Definition rne (m : Q) : Z :=
  let f := Qfloor m in
  match (m - inject_Z f ?= 1 # 2)%Q with
  | Lt => f
  | Gt => f + 1
  | Eq => if Z.even f then f else f + 1
  end.

(** Rounding of a positive rational to a 53-bit significand. *)
Definition round_pos (x : Q) : Q :=
  let e := ilog2 x - 52 in
  (inject_Z (rne (x / pow2 e)) * pow2 e)%Q.

Definition round (x : Q) : Q :=
  match Qnum x with
  | 0 => 0%Q
  | Zpos _ => round_pos x
  | Zneg _ => (- round_pos (- x))%Q
  end.

(** [float(n)]. *)
Definition of_int (n : Z) : Q := round (inject_Z n).

(** [a / b] on two [int]s: the correctly rounded quotient, or
    [ZeroDivisionError]. *)
Definition truediv (a b : Z) : option Q :=
  if b =? 0 then None else Some (round (inject_Z a / inject_Z b)).

(** [x * y] and [x / y] on two floats. *)
Definition mul (x y : Q) : Q := round (x * y).

Definition div (x y : Q) : option Q :=
  if Qeq_bool y 0 then None else Some (round (x / y)).

(** [x > y]. *)
Definition gt (x y : Q) : bool := negb (Qle_bool x y).

(** [int(x)]: truncation towards zero. *)
Definition to_int (x : Q) : Z := Z.quot (Qnum x) (Zpos (Qden x)).

(** Half the distance from 1 to the next number with a 53-bit significand,
    relative to 1: the largest relative change rounding can make. *)
Definition unit_roundoff : Q := 1 # (2 ^ 53).

End Float.

(** ** Pillow images

    Only the geometry matters to the server, so an image is the history of
    the operations that produced it; [size] reads its width and height. *)

Inductive Image :=
| Opened (w h : Z)
| Resized (src : Image) (new_size : Z * Z)
| Cropped (src : Image) (box : Z * Z * Z * Z).

Definition size (im : Image) : Z * Z :=
  match im with
  | Opened w h => (w, h)
  | Resized _ s => s
  | Cropped _ (l, t, r, b) => (r - l, b - t)
  end.

Definition width (im : Image) : Z := fst (size im).
Definition height (im : Image) : Z := snd (size im).

(** [im.resize(size, LANCZOS)]: Pillow refuses a side below one pixel. *)
Definition resize (im : Image) (new_size : Z * Z) : option Image :=
  if ((1 <=? fst new_size) && (1 <=? snd new_size))%bool
  then Some (Resized im new_size) else None.

(** [im.crop(box)]: the result has the size of the box, also where the box
    leaves the image; Pillow refuses a box whose right or lower edge comes
    before the left or upper one. *)
Definition crop (im : Image) (box : Z * Z * Z * Z) : option Image :=
  let '(l, t, r, b) := box in
  if ((l <=? r) && (t <=? b))%bool then Some (Cropped im box) else None.

(** [resize_and_crop_image(image, target_size)] *)
Definition resize_and_crop_image (image : Image) (target_size : Z * Z)
  : option Image :=
  let '(target_width, target_height) := target_size in
  img_ratio ← Float.truediv (width image) (height image);
  target_ratio ← Float.truediv target_width target_height;
  '(new_width, new_height) ←
    (if Float.gt img_ratio target_ratio
     then Some (Float.to_int (Float.mul (Float.of_int target_height) img_ratio),
                target_height)
     else q ← Float.div (Float.of_int target_width) img_ratio;
          Some (target_width, Float.to_int q));
  image ← resize image (new_width, new_height);
  let left := (new_width - target_width) / 2 in
  let top := (new_height - target_height) / 2 in
  let right := left + target_width in
  let bottom := top + target_height in
  crop image (left, top, right, bottom).

(** ** The state of the process

    The module-level globals, the two directories, the persisted
    configuration file and the log of [display_image] calls. A thread of
    [cycle_images] is [Ready] when it is about to test [cycling_enabled],
    [Sleeping] inside [time.sleep] and [Finished] once its loop has ended. *)

Inductive thread_state := Ready | Sleeping | Finished.

Record State := mkState {
  CONFIG : gmap string json;
  current_image_index : Z;
  image_files : list string;
  cycling_enabled : bool;
  cycle_thread : option nat;
  threads : list thread_state;
  uploaded_images : gset string;
  thumbnails : gset string;
  config_json : option (gmap string json);
  displayed : list string
}.

Definition set_CONFIG (c : gmap string json) (s : State) : State :=
  mkState c (current_image_index s) (image_files s) (cycling_enabled s)
    (cycle_thread s) (threads s) (uploaded_images s) (thumbnails s)
    (config_json s) (displayed s).

Definition set_current_image_index (i : Z) (s : State) : State :=
  mkState (CONFIG s) i (image_files s) (cycling_enabled s)
    (cycle_thread s) (threads s) (uploaded_images s) (thumbnails s)
    (config_json s) (displayed s).

Definition set_image_files (l : list string) (s : State) : State :=
  mkState (CONFIG s) (current_image_index s) l (cycling_enabled s)
    (cycle_thread s) (threads s) (uploaded_images s) (thumbnails s)
    (config_json s) (displayed s).

Definition set_cycling_enabled (b : bool) (s : State) : State :=
  mkState (CONFIG s) (current_image_index s) (image_files s) b
    (cycle_thread s) (threads s) (uploaded_images s) (thumbnails s)
    (config_json s) (displayed s).

Definition set_cycle_thread (t : option nat) (s : State) : State :=
  mkState (CONFIG s) (current_image_index s) (image_files s) (cycling_enabled s)
    t (threads s) (uploaded_images s) (thumbnails s)
    (config_json s) (displayed s).

Definition set_threads (l : list thread_state) (s : State) : State :=
  mkState (CONFIG s) (current_image_index s) (image_files s) (cycling_enabled s)
    (cycle_thread s) l (uploaded_images s) (thumbnails s)
    (config_json s) (displayed s).

Definition set_uploaded_images (d : gset string) (s : State) : State :=
  mkState (CONFIG s) (current_image_index s) (image_files s) (cycling_enabled s)
    (cycle_thread s) (threads s) d (thumbnails s)
    (config_json s) (displayed s).

Definition set_thumbnails (d : gset string) (s : State) : State :=
  mkState (CONFIG s) (current_image_index s) (image_files s) (cycling_enabled s)
    (cycle_thread s) (threads s) (uploaded_images s) d
    (config_json s) (displayed s).

Definition set_config_json (f : option (gmap string json)) (s : State) : State :=
  mkState (CONFIG s) (current_image_index s) (image_files s) (cycling_enabled s)
    (cycle_thread s) (threads s) (uploaded_images s) (thumbnails s)
    f (displayed s).

Definition set_displayed (l : list string) (s : State) : State :=
  mkState (CONFIG s) (current_image_index s) (image_files s) (cycling_enabled s)
    (cycle_thread s) (threads s) (uploaded_images s) (thumbnails s)
    (config_json s) l.

(** The name of the thumbnail of an image: [f"thumb_{image_path.name}"]. *)
Definition thumb_name (name : string) : string := "thumb_" +:+ name.

(** [display_image(image_path)]: every exception is caught inside, so the
    call always returns; it is recorded in the log. *)
Definition display_image (image_path : string) (s : State) : State :=
  set_displayed (displayed s ++ [image_path]) s.

(** The body of the [while] loop of [cycle_images], up to [time.sleep]:
    [None] is the [IndexError] of [image_files[current_image_index]]. *)
Definition cycle_body (s : State) : option State :=
  match image_files s with
  | [] => Some s
  | _ :: _ =>
      image_path ← Py.getitem (image_files s) (current_image_index s);
      let s := display_image image_path s in
      Some (set_current_image_index
              ((current_image_index s + 1) mod Z.of_nat (length (image_files s))) s)
  end.

(** [K] consecutive passes through the loop body. *)
Fixpoint ticks (K : nat) (s : State) : option State :=
  match K with
  | O => Some s
  | S K' => s' ← cycle_body s; ticks K' s'
  end.

(** [thread.is_alive()] *)
Definition is_alive (ths : list thread_state) (t : nat) : bool :=
  match ths !! t with
  | Some Ready | Some Sleeping => true
  | _ => false
  end.

(** [start_cycling()] *)
Definition start_cycling (s : State) : State :=
  let spawn :=
    set_threads (threads s ++ [Ready])
      (set_cycle_thread (Some (length (threads s))) s) in
  match cycle_thread s with
  | None => spawn
  | Some t => if is_alive (threads s) t then s else spawn
  end.

(** Thread [t] of [cycle_images] runs from the test of the loop condition
    to its next [time.sleep], or to its end. *)
Definition thread_runs (t : nat) (s : State) : State :=
  match threads s !! t with
  | Some Ready =>
      if cycling_enabled s then
        match cycle_body s with
        | Some s' => set_threads (<[t := Sleeping]> (threads s')) s'
        | None => set_threads (<[t := Finished]> (threads s)) s
        end
      else set_threads (<[t := Finished]> (threads s)) s
  | _ => s
  end.

(** [time.sleep(CONFIG["cycle_interval"])] returns in thread [t]. *)
Definition timer_expires (t : nat) (s : State) : State :=
  match threads s !! t with
  | Some Sleeping => set_threads (<[t := Ready]> (threads s)) s
  | _ => s
  end.

(** [create_thumbnail(image_path)]: nothing to do when the thumbnail exists;
    otherwise it is written when the image can be opened and saved ([ok]),
    and a failure is swallowed. *)
Definition create_thumbnail (name : string) (ok : bool) (s : State) : State :=
  if bool_decide (thumb_name name ∈ thumbnails s) then s
  else if (bool_decide (name ∈ uploaded_images s) && ok)%bool
       then set_thumbnails (thumbnails s ∪ {[thumb_name name]}) s
       else s.

(** [load_existing_images()], given the entries of [UPLOAD_DIR] with their
    modification times in the order [iterdir] yields them; [thumb_ok] tells
    for which images a thumbnail can be produced. [None] is an exception of
    the slice (a [max_images] that is no integer). *)
Definition is_jpeg (entry : string * Z) : bool :=
  bool_decide (Py.lower (Path_suffix entry.1) ∈ [".jpg"; ".jpeg"]).

Definition load_existing_images (listing : list (string * Z))
    (thumb_ok : string -> bool) (s : State) : option State :=
  v ← CONFIG s !! "max_images";
  m ← as_int v;
  let files := Py.last_slice m ((Py.sorted snd (filter is_jpeg listing)).*1) in
  let s := set_image_files files s in
  let s := foldl (fun s img => create_thumbnail img (thumb_ok img) s) s files in
  Some (match files with
        | [] => s
        | first :: _ => display_image first s
        end).

(** [startup_event()] *)
Definition startup_event (listing : list (string * Z))
    (thumb_ok : string -> bool) (s : State) : option State :=
  start_cycling <$> load_existing_images listing thumb_ok s.

(** The globals when the module has been loaded and [__main__] has updated
    [CONFIG] from [config.json], if that file exists. *)
Definition initial_globals (config_file : option (gmap string json))
    (listing : list (string * Z)) (thumbs : gset string) : State :=
  {| CONFIG := match config_file with
               | Some c => c ∪ default_CONFIG
               | None => default_CONFIG
               end;
     current_image_index := 0;
     image_files := [];
     cycling_enabled := true;
     cycle_thread := None;
     threads := [];
     uploaded_images := list_to_set (listing.*1);
     thumbnails := thumbs;
     config_json := config_file;
     displayed := [] |}.

(** The process as [__main__] starts it: the startup event on the initial
    globals. *)
Definition main (config_file : option (gmap string json))
    (listing : list (string * Z)) (thumbs : gset string)
    (thumb_ok : string -> bool) : option State :=
  startup_event listing thumb_ok (initial_globals config_file listing thumbs).

(** ** Request handlers *)

(** What a handler answers. The three places where [upload_image] raises are
    kept apart by [cause]; all of them reach the client as status 400. *)
Inductive cause :=
| UnsupportedFormat   (* the HEIC check before the body is read *)
| DecodeFailed        (* [Image.open] raised *)
| Raised.             (* any other exception, caught by the last handler *)

Inductive response :=
| OK (message : string) (filename : option string)
| HTTPException (status_code : Z) (why : cause) (detail : string).

Record UploadFile := { filename : string; contents : list Byte.byte }.

(** [target_width, target_height = CONFIG["display_size"]] *)
Definition as_size (v : json) : option (Z * Z) :=
  match v with
  | JList [a; b] => w ← as_int a; h ← as_int b; Some (w, h)
  | _ => None
  end.

Definition heic_unsupported : string :=
  "HEIC files are not supported. Please install pillow-heif: pip install pillow-heif".

(** ** Data for the examples

    A stand-in for Pillow's decoder: two bytes are an image of that width
    and height, anything else is refused. *)
Definition example_open (b : list Byte.byte) : Image + string :=
  match b with
  | [w; h] => inl (Opened (Z.of_N (Byte.to_N w)) (Z.of_N (Byte.to_N h)))
  | _ => inr "cannot identify image file"
  end.

Definition photo : UploadFile :=
  {| filename := "holiday.JPG"; contents := [Byte.x40; Byte.x30] |}.

Definition garbage : UploadFile :=
  {| filename := "notes.txt"; contents := [] |}.

Definition iphone : UploadFile :=
  {| filename := "IMG_0042.HEIC"; contents := [Byte.x40; Byte.x30] |}.

Definition clock (s us : Z) : datetime :=
  {| year := 2024; month := 5; day := 7; hour := 9; minute := 3;
     second := s; microsecond := us |}.

(** An empty upload directory and no [config.json]. *)
Definition fresh : State :=
  start_cycling (initial_globals None [] ∅).

(** The same with [max_images] set to 2 in [config.json]. *)
Definition small : State :=
  start_cycling (initial_globals (Some {["max_images" := JInt 2]}) [] ∅).

(** Three images on display, the cursor on the second. *)
Definition gallery : State :=
  set_current_image_index 1
    (set_image_files ["a.jpg"; "b.jpg"; "c.jpg"] fresh).

Section Server.

(** Whether [pillow_heif] could be imported, and Pillow's decoder: the image
    with its pixels loaded, or the text of the exception. *)
Variable HEIC_SUPPORT : bool.
Variable Image_open : list Byte.byte -> Image + string.

Definition is_heic (file : UploadFile) : bool :=
  Py.endswith_any (Py.lower (filename file)) [".heic"; ".heif"].

(** [upload_image(file)] at clock time [now]; [thumb_ok] tells whether the
    thumbnail of the new file can be produced. *)
Definition upload_image (file : UploadFile) (now : datetime) (thumb_ok : bool)
    (s : State) : response * State :=
  if (is_heic file && negb HEIC_SUPPORT)%bool then
    (HTTPException 400 UnsupportedFormat heic_unsupported, s)
  else
    match Image_open (contents file) with
    | inr e =>
        (HTTPException 400 DecodeFailed
           (if is_heic file then "Error processing HEIC file: " +:+ e else e), s)
    | inl image =>
        match (v ← CONFIG s !! "display_size";
               target_size ← as_size v;
               resize_and_crop_image image target_size) with
        | None => (HTTPException 400 Raised "resize_and_crop_image", s)
        | Some processed_image =>
            let timestamp := strftime now in
            let filename := "image_" +:+ timestamp +:+ ".jpg" in
            (* processed_image.save(filepath, "JPEG", quality=95) *)
            let s := set_uploaded_images (uploaded_images s ∪ ({[filename]} : gset string)) s in
            (* image_files.append(filepath) *)
            let s := set_image_files (image_files s ++ [filename]) s in
            let s := create_thumbnail filename thumb_ok s in
            match (v ← CONFIG s !! "max_images";
                   int_gt (Z.of_nat (length (image_files s))) v) with
            | None => (HTTPException 400 Raised "max_images", s)
            | Some false =>
                (OK "Image uploaded successfully" (Some filename),
                 display_image filename s)
            | Some true =>
                match image_files s with
                | [] => (HTTPException 400 Raised "pop from empty list", s)
                | oldest :: rest =>
                    (* oldest = image_files.pop(0) *)
                    let s := set_image_files rest s in
                    (* oldest.unlink() *)
                    if bool_decide (oldest ∈ uploaded_images s) then
                      let s := set_uploaded_images
                                 (uploaded_images s ∖ ({[oldest]} : gset string)) s in
                      (* if thumb_path.exists(): thumb_path.unlink() *)
                      let s := set_thumbnails
                                 (thumbnails s ∖ ({[thumb_name oldest]} : gset string)) s in
                      (OK "Image uploaded successfully" (Some filename),
                       display_image filename s)
                    else
                      (HTTPException 400 Raised "No such file or directory", s)
                end
            end
        end
    end.

(** [update_config(config)]: [CONFIG.update(config)], then the dictionary
    is dumped to [config.json]. *)
Definition update_config (config : gmap string json) (s : State)
    : response * State :=
  let s := set_CONFIG (config ∪ CONFIG s) s in
  let s := set_config_json (Some (CONFIG s)) s in
  (OK "Configuration updated" None, s).

(** [control_cycling(action)] *)
Definition control_cycling (action : string) (s : State) : response * State :=
  if String.eqb action "start" then
    let s := set_cycling_enabled true s in
    (OK "Cycling started" None, start_cycling s)
  else if String.eqb action "stop" then
    (OK "Cycling stopped" None, set_cycling_enabled false s)
  else (HTTPException 400 Raised "Invalid action", s).


(** ** Runs of the process

    The handlers run one at a time on the event loop; a cycling thread is
    scheduled between them, one loop pass at a time. *)
Inductive event :=
| Upload (file : UploadFile) (now : datetime) (thumb_ok : bool)
| UpdateConfig (config : gmap string json)
| Control (action : string)
| TimerExpires (t : nat)
| ThreadRuns (t : nat).

Definition step (s : State) (e : event) : State :=
  match e with
  | Upload file now thumb_ok => (upload_image file now thumb_ok s).2
  | UpdateConfig config => (update_config config s).2
  | Control action => (control_cycling action s).2
  | TimerExpires t => timer_expires t s
  | ThreadRuns t => thread_runs t s
  end.

Definition run (s : State) (es : list event) : State := foldl step s es.

(** The states the process can be in: started by [main], then any events. *)
Definition reachable (s : State) : Prop :=
  exists config_file listing thumbs thumb_ok s0 es,
    main config_file listing thumbs thumb_ok = Some s0 /\ s = run s0 es.






(** A sequence of uploads, each with the clock time and the outcome of the
    thumbnail generation it meets. *)
Definition request : Type := UploadFile * datetime * bool.

Definition insert (s : State) (r : request) : response * State :=
  upload_image r.1.1 r.1.2 r.2 s.

Definition inserts (s : State) (rs : list request) : State :=
  foldl (fun s r => (insert s r).2) s rs.

(** The identifier an upload at that time is stored under. *)
Definition identifier (r : request) : string :=
  "image_" +:+ strftime r.1.2 +:+ ".jpg".

Definition succeeded (r : response) : bool :=
  match r with OK _ _ => true | HTTPException _ _ _ => false end.

Fixpoint all_succeed (s : State) (rs : list request) : Prop :=
  match rs with
  | [] => True
  | r :: rs' => succeeded (insert s r).1 = true /\ all_succeed (insert s r).2 rs'
  end.

(** The [M] most recent of a list of identifiers kept oldest first. *)
Definition most_recent (M : Z) (l : list string) : list string :=
  drop (length l - Z.to_nat M) l.

(** The upload gets past decoding and resizing, so that the file is
    stored. *)
Definition accepted (file : UploadFile) (s : State) : Prop :=
  (is_heic file && negb HEIC_SUPPORT)%bool = false /\
  exists image target_size v,
    Image_open (contents file) = inl image /\
    CONFIG s !! "display_size" = Some v /\ as_size v = Some target_size /\
    is_Some (resize_and_crop_image image target_size).

(** The statements of [upload_image] from [processed_image.save] on, as a
    function of their own: the lemmas on stored uploads are stated on it
    ([upload_image_cases] relates the two). *)
Definition store (filename : string) (thumb_ok : bool) (s : State)
    : response * State :=
  let s := set_uploaded_images (uploaded_images s ∪ ({[filename]} : gset string)) s in
  let s := set_image_files (image_files s ++ [filename]) s in
  let s := create_thumbnail filename thumb_ok s in
  match (v ← CONFIG s !! "max_images";
         int_gt (Z.of_nat (length (image_files s))) v) with
  | None => (HTTPException 400 Raised "max_images", s)
  | Some false =>
      (OK "Image uploaded successfully" (Some filename), display_image filename s)
  | Some true =>
      match image_files s with
      | [] => (HTTPException 400 Raised "pop from empty list", s)
      | oldest :: rest =>
          let s := set_image_files rest s in
          if bool_decide (oldest ∈ uploaded_images s) then
            let s := set_uploaded_images
                       (uploaded_images s ∖ ({[oldest]} : gset string)) s in
            let s := set_thumbnails
                       (thumbnails s ∖ ({[thumb_name oldest]} : gset string)) s in
            (OK "Image uploaded successfully" (Some filename),
             display_image filename s)
          else (HTTPException 400 Raised "No such file or directory", s)
      end
  end.

(** The bound check after the append: [len(image_files) > max_images]. *)
Definition over_limit (s : State) : Prop :=
  exists v, CONFIG s !! "max_images" = Some v /\
    int_gt (Z.of_nat (length (image_files s)) + 1) v = Some true.





Definition files_inv (s : State) : Prop :=
  forall p, p ∈ image_files s -> thumb_name p ∈ thumbnails s ->
            p ∈ uploaded_images s.

(** ** The remaining handlers *)

(** [get_config()] and [check_heic_support()] *)
Definition get_config (s : State) : gmap string json := CONFIG s.

Definition check_heic_support : bool := HEIC_SUPPORT.

(** The value [create_thumbnail] returns: the path of the thumbnail, or
    [None] when it could not be made. *)
Definition create_thumbnail_path (name : string) (ok : bool) (s : State)
    : option string :=
  if bool_decide (thumb_name name ∈ thumbnails s) then Some (thumb_name name)
  else if (bool_decide (name ∈ uploaded_images s) && ok)%bool
       then Some (thumb_name name)
       else None.

(** [get_thumbnail(filename)]: a file response or the 404. *)
Inductive file_response :=
| FileResponse (path : string)
| NotFound (status_code : Z) (detail : string).

Definition get_thumbnail (filename : string) (thumb_ok : bool) (s : State)
    : file_response * State :=
  if bool_decide (thumb_name filename ∈ thumbnails s) then
    (FileResponse (thumb_name filename), s)
  else if bool_decide (filename ∈ uploaded_images s) then
    match create_thumbnail_path filename thumb_ok s with
    | Some thumb => (FileResponse thumb, create_thumbnail filename thumb_ok s)
    | None => (NotFound 404 "Thumbnail not found",
               create_thumbnail filename thumb_ok s)
    end
  else (NotFound 404 "Thumbnail not found", s).

(** Every listed image has its file in the upload directory. *)
Definition listed_on_disk (s : State) : Prop :=
  forall p, p ∈ image_files s -> p ∈ uploaded_images s.

(** A date and time of day as [datetime] admits them, as far as
    [strftime] prints them. *)
Definition printable (d : datetime) : Prop :=
  0 <= year d < 10000 /\ 0 <= month d < 100 /\ 0 <= day d < 100 /\
  0 <= hour d < 100 /\ 0 <= minute d < 100 /\ 0 <= second d < 100.

(** The fields of a time that [strftime] prints. *)
Definition to_the_second (d : datetime) : Z * Z * Z * Z * Z * Z :=
  (year d, month d, day d, hour d, minute d, second d).

(** The keys the source gives [CONFIG]. *)
Definition config_keys : list string :=
  ["max_images"; "cycle_interval"; "display_size"; "saturation"].

(** The entries of the upload directory that [load_existing_images] keeps,
    with their modification times. *)
Definition kept_entries (m : Z) (listing : list (string * Z))
    : list (string * Z) :=
  Py.last_slice m (Py.sorted snd (filter is_jpeg listing)).

(** * Properties *)

(** ** The cycler *)

Lemma getitem_in_range {A} (l : list A) (i : Z) :
0 <= i < Z.of_nat (length l) -> is_Some (Py.getitem l i).
Proof.
intros [Hlo Hhi]. unfold Py.getitem.
destruct (Z.leb_spec 0 i) as [_|]; [|lia].
apply lookup_lt_is_Some. lia.
Qed.

Lemma getitem_nonneg {A} (l : list A) (i : Z) :
0 <= i -> Py.getitem l i = l !! Z.to_nat i.
Proof.
intros Hi. unfold Py.getitem. destruct (Z.leb_spec 0 i); [done|lia].
Qed.

(** One pass through the loop body on a non-empty collection. *)
Lemma cycle_body_nonempty (s : State) :
image_files s <> [] ->
0 <= current_image_index s < Z.of_nat (length (image_files s)) ->
exists image_path,
  image_files s !! Z.to_nat (current_image_index s) = Some image_path /\
  cycle_body s =
    Some (set_current_image_index
            ((current_image_index s + 1) mod Z.of_nat (length (image_files s)))
            (display_image image_path s)).
Proof.
intros Hne Hc. destruct (getitem_in_range (image_files s) _ Hc) as [p Hp].
exists p. split; [by rewrite <- getitem_nonneg by lia|].
unfold cycle_body. destruct (image_files s) eqn:E; [done|].
rewrite <- E in *. rewrite Hp. reflexivity.
Qed.

Lemma cycle_body_empty (s : State) : image_files s = [] -> cycle_body s = Some s.
Proof. intros E. unfold cycle_body. by rewrite E. Qed.

Lemma ticks_empty (K : nat) (s : State) : image_files s = [] -> ticks K s = Some s.
Proof.
intros E. induction K as [|K IH]; [done|].
simpl. rewrite cycle_body_empty by done. exact IH.
Qed.

(** C3: on a non-empty collection of length [L] with the cursor at [c] in
  [0, L), [K] ticks succeed, leave the collection alone, move the cursor to
  [(c + K) mod L] and append [K] renders to the log, the [i]-th of them of
  the image at position [(c + i) mod L], the cursor before that tick; on an
  empty collection any number of ticks returns the state unchanged. *)
Theorem ticks_cursor (s : State) (K : nat) :
(image_files s = [] -> ticks K s = Some s) /\
(image_files s <> [] ->
 0 <= current_image_index s < Z.of_nat (length (image_files s)) ->
 exists s',
   ticks K s = Some s' /\
   image_files s' = image_files s /\
   current_image_index s' =
     (current_image_index s + Z.of_nat K) mod Z.of_nat (length (image_files s)) /\
   length (displayed s') = (length (displayed s) + K)%nat /\
   (forall i, (i < length (displayed s))%nat ->
              displayed s' !! i = displayed s !! i) /\
   (forall i, (i < K)%nat ->
      is_Some (displayed s' !! (length (displayed s) + i)%nat) /\
      displayed s' !! (length (displayed s) + i)%nat =
      image_files s !! Z.to_nat ((current_image_index s + Z.of_nat i)
                                   mod Z.of_nat (length (image_files s))))).
Proof.
split; [apply ticks_empty|].
revert s. induction K as [|K IH]; intros s Hne Hc.
- exists s. simpl. repeat split; try done; try lia.
  rewrite Z.add_0_r, Z.mod_small; lia.
- destruct (cycle_body_nonempty s Hne Hc) as (p & Hp & Hbody).
  set (s1 := set_current_image_index
               ((current_image_index s + 1) mod Z.of_nat (length (image_files s)))
               (display_image p s)) in *.
  assert (Hf1 : image_files s1 = image_files s) by reflexivity.
  assert (Hd1 : displayed s1 = displayed s ++ [p]) by reflexivity.
  assert (Hc1 : current_image_index s1 =
            (current_image_index s + 1) mod Z.of_nat (length (image_files s)))
    by reflexivity.
  assert (HL : 0 < Z.of_nat (length (image_files s))) by lia.
  destruct (IH s1) as (s' & Ht & Hf & Hcur & Hlen & Hold & Hnew).
  { by rewrite Hf1. }
  { rewrite Hf1, Hc1. apply Z.mod_pos_bound. lia. }
  exists s'. simpl. rewrite Hbody. simpl. split; [exact Ht|].
  rewrite Hf1, Hc1 in *. rewrite Hd1 in *. rewrite length_app in *. simpl in *.
  split; [done|]. split.
  { rewrite Hcur, Zplus_mod_idemp_l. f_equal. lia. }
  split; [lia|]. split.
  { intros i Hi. rewrite Hold by lia. by rewrite lookup_app_l by lia. }
  intros i Hi. destruct i as [|i].
  + rewrite Nat.add_0_r, Z.add_0_r. rewrite Hold by lia.
    rewrite lookup_app_r by lia. rewrite Nat.sub_diag. simpl.
    rewrite Z.mod_small by lia. rewrite Hp. split; [by eexists|done].
  + destruct (Hnew i ltac:(lia)) as [Hs He].
    replace (length (displayed s) + S i)%nat
      with (length (displayed s) + 1 + i)%nat by lia.
    split; [exact Hs|]. rewrite He. f_equal. f_equal.
    rewrite Zplus_mod_idemp_l. f_equal. lia.
Qed.

(** ** Uploads and the bounded collection *)

Lemma create_thumbnail_frame (name : string) (ok : bool) (s : State) :
CONFIG (create_thumbnail name ok s) = CONFIG s /\
current_image_index (create_thumbnail name ok s) = current_image_index s /\
image_files (create_thumbnail name ok s) = image_files s /\
cycling_enabled (create_thumbnail name ok s) = cycling_enabled s /\
cycle_thread (create_thumbnail name ok s) = cycle_thread s /\
threads (create_thumbnail name ok s) = threads s /\
uploaded_images (create_thumbnail name ok s) = uploaded_images s /\
displayed (create_thumbnail name ok s) = displayed s.
Proof. unfold create_thumbnail. repeat case_match; done. Qed.

(** What an upload does to the collection, whatever it answers: nothing,
    an append, or an append followed by the removal of the head. *)
Lemma upload_image_files (file : UploadFile) (now : datetime) (ok : bool)
    (s : State) :
  let s' := (upload_image file now ok s).2 in
  let name := "image_" +:+ strftime now +:+ ".jpg" in
  CONFIG s' = CONFIG s /\
  current_image_index s' = current_image_index s /\
  cycling_enabled s' = cycling_enabled s /\
  cycle_thread s' = cycle_thread s /\
  threads s' = threads s /\
  (image_files s' = image_files s \/
   image_files s' = image_files s ++ [name] \/
   image_files s' = tail (image_files s ++ [name])).
Proof.
  intros s' name. subst s'. unfold upload_image. fold name.
  match goal with |- context [create_thumbnail ?n ?o ?st] =>
    destruct (create_thumbnail_frame n o st) as (HC & Hi & Hf & He & Hct & Ht & _);
    set (s1 := create_thumbnail n o st) in *
  end.
  simpl in HC, Hi, Hf, He, Hct, Ht.
  repeat case_match; simpl; rewrite ?HC, ?Hi, ?He, ?Hct, ?Ht;
    repeat split; auto.
  all: try (right; left; congruence).
  all: right; right; rewrite <- Hf; reflexivity.
Qed.

(** A successful upload stores the file under the name derived from the
    clock and, with [max_images] an integer [M], drops the head of the
    list exactly when the list has grown beyond [M]. *)
Lemma upload_succeeded (file : UploadFile) (now : datetime) (ok : bool)
    (s : State) (M : Z) :
  CONFIG s !! "max_images" = Some (JInt M) ->
  succeeded (upload_image file now ok s).1 = true ->
  let name := "image_" +:+ strftime now +:+ ".jpg" in
  (upload_image file now ok s).1 = OK "Image uploaded successfully" (Some name) /\
  image_files (upload_image file now ok s).2 =
    (if M <? Z.of_nat (length (image_files s)) + 1
     then tail (image_files s ++ [name]) else image_files s ++ [name]).
Proof.
  intros HM Hok name. revert Hok. unfold upload_image. fold name.
  match goal with |- context [create_thumbnail ?n ?o ?st] =>
    destruct (create_thumbnail_frame n o st) as (HC & _ & Hf & _);
    set (s1 := create_thumbnail n o st) in *
  end.
  simpl in HC, Hf.
  assert (Hlen : Z.of_nat (length (image_files s1)) =
                 Z.of_nat (length (image_files s)) + 1).
  { rewrite Hf, length_app. simpl. lia. }
  rewrite HC, HM. simpl. rewrite Hlen.
  destruct (M <? _) eqn:E; repeat case_match; simpl; try discriminate;
    intros _; split; try reflexivity; try congruence.
  all: rewrite <- Hf; reflexivity.
Qed.

Lemma most_recent_short (M : Z) (l : list string) :
  Z.of_nat (length l) <= M -> most_recent M l = l.
Proof.
  intros H. unfold most_recent.
  replace (length l - Z.to_nat M)%nat with O by lia. reflexivity.
Qed.

Lemma most_recent_length (M : Z) (l : list string) :
  0 <= M -> Z.of_nat (length (most_recent M l)) <= M.
Proof. intros H. unfold most_recent. rewrite length_drop. lia. Qed.

Lemma most_recent_app (M : Z) (a b : list string) :
  most_recent M (most_recent M a ++ b) = most_recent M (a ++ b).
Proof.
  unfold most_recent. rewrite !length_app, length_drop.
  destruct (decide (length a <= Z.to_nat M)%nat) as [Hle|Hgt].
  - replace (length a - Z.to_nat M)%nat with O by lia.
    rewrite Nat.sub_0_r. reflexivity.
  - replace (length a + length b - Z.to_nat M)%nat
      with ((length a - Z.to_nat M) + length b)%nat by lia.
    replace (length a - (length a - Z.to_nat M) + length b - Z.to_nat M)%nat
      with (length b) by lia.
    rewrite <- drop_drop.
    rewrite (drop_app_le a b (length a - Z.to_nat M)) by lia. reflexivity.
Qed.

Lemma bound_check_most_recent (M : Z) (l : list string) (x : string) :
  0 < M -> Z.of_nat (length l) <= M ->
  (if M <? Z.of_nat (length l) + 1 then tail (l ++ [x]) else l ++ [x])
  = most_recent M (l ++ [x]).
Proof.
  intros HM Hl. unfold most_recent. rewrite length_app. simpl.
  destruct (Z.ltb_spec M (Z.of_nat (length l) + 1)).
  - replace (length l + 1 - Z.to_nat M)%nat with 1%nat by lia.
    destruct (l ++ [x]); reflexivity.
  - replace (length l + 1 - Z.to_nat M)%nat with O by lia. reflexivity.
Qed.

Lemma inserts_CONFIG (s : State) (rs : list request) :
  CONFIG (inserts s rs) = CONFIG s.
Proof.
  revert s. induction rs as [|r rs IH]; intros s; [done|].
  simpl. rewrite IH. apply upload_image_files.
Qed.

Lemma all_succeed_take (s : State) (rs : list request) (k : nat) :
  all_succeed s rs -> all_succeed s (take k rs).
Proof.
  revert s k. induction rs as [|r rs IH]; intros s [|k]; simpl; try done.
  intros [H1 H2]. split; [done|]. by apply IH.
Qed.

Lemma inserts_most_recent (M : Z) (s : State) (rs : list request) :
  CONFIG s !! "max_images" = Some (JInt M) -> 0 < M ->
  Z.of_nat (length (image_files s)) <= M ->
  all_succeed s rs ->
  image_files (inserts s rs) =
    most_recent M (image_files s ++ (identifier <$> rs)).
Proof.
  intros HM HM0. revert s HM.
  induction rs as [|r rs IH]; intros s HM Hlen Hok.
  - simpl. rewrite app_nil_r. symmetry. by apply most_recent_short.
  - destruct Hok as [Hr Hrs]. simpl.
    destruct (upload_succeeded r.1.1 r.1.2 r.2 s M HM Hr) as [_ Hf].
    rewrite bound_check_most_recent in Hf by done.
    assert (HC : CONFIG (insert s r).2 = CONFIG s) by apply upload_image_files.
    rewrite IH; [|by rewrite HC| |done].
    + unfold insert at 1. rewrite Hf. fold (identifier r).
      rewrite most_recent_app, <- app_assoc. reflexivity.
    + unfold insert. rewrite Hf. apply most_recent_length. lia.
Qed.

(** C1: with [max_images] a positive integer [M] and a collection within
    the bound, after each of a sequence of successful uploads the length is
    at most [M] and the collection holds the [M] most recent identifiers of
    the old collection followed by the uploads so far, oldest first; once
    at least [M] uploads were made these are identifiers of uploads
    only. *)
Theorem inserts_bounded (M : Z) (s : State) (rs : list request) :
  CONFIG s !! "max_images" = Some (JInt M) -> 0 < M ->
  Z.of_nat (length (image_files s)) <= M ->
  all_succeed s rs ->
  (forall k : nat,
      Z.of_nat (length (image_files (inserts s (take k rs)))) <= M /\
      image_files (inserts s (take k rs)) =
        most_recent M (image_files s ++ (identifier <$> take k rs))) /\
  (M <= Z.of_nat (length rs) ->
   image_files (inserts s rs) = most_recent M (identifier <$> rs)).
Proof.
  intros HM HM0 Hlen Hok. split.
  - intros k.
    rewrite (inserts_most_recent M s (take k rs)); auto using all_succeed_take.
    split; [apply most_recent_length; lia|done].
  - intros HN. rewrite (inserts_most_recent M s rs) by done.
    unfold most_recent. rewrite length_app, length_fmap.
    replace (length (image_files s) + length rs - Z.to_nat M)%nat
      with (length (image_files s) + (length rs - Z.to_nat M))%nat by lia.
    rewrite <- drop_drop, drop_app_length. reflexivity.
Qed.

(** ** The cursor stays inside the collection *)

Lemma create_thumbnails_frame (names : list string) (ok : string -> bool)
    (s : State) :
  let s' := foldl (fun s img => create_thumbnail img (ok img) s) s names in
  CONFIG s' = CONFIG s /\
  current_image_index s' = current_image_index s /\
  image_files s' = image_files s /\
  cycling_enabled s' = cycling_enabled s /\
  cycle_thread s' = cycle_thread s /\
  threads s' = threads s /\
  uploaded_images s' = uploaded_images s /\
  displayed s' = displayed s.
Proof.
  revert s. induction names as [|n names IH]; intros s; simpl; [done|].
  destruct (IH (create_thumbnail n (ok n) s)) as (?&?&?&?&?&?&?&?).
  destruct (create_thumbnail_frame n (ok n) s) as (?&?&?&?&?&?&?&?).
  repeat split; congruence.
Qed.

Lemma start_cycling_frame (s : State) :
  CONFIG (start_cycling s) = CONFIG s /\
  current_image_index (start_cycling s) = current_image_index s /\
  image_files (start_cycling s) = image_files s /\
  cycling_enabled (start_cycling s) = cycling_enabled s /\
  uploaded_images (start_cycling s) = uploaded_images s /\
  thumbnails (start_cycling s) = thumbnails s /\
  displayed (start_cycling s) = displayed s.
Proof. unfold start_cycling. repeat case_match; done. Qed.

Lemma load_existing_images_frame listing thumb_ok (s s' : State) :
  load_existing_images listing thumb_ok s = Some s' ->
  current_image_index s' = current_image_index s /\
  cycling_enabled s' = cycling_enabled s /\
  cycle_thread s' = cycle_thread s /\
  threads s' = threads s /\
  uploaded_images s' = uploaded_images s /\
  image_files s' ⊆ (filter is_jpeg listing).*1.
Proof.
  unfold load_existing_images. intros H.
  apply bind_Some in H as (v & _ & H).
  apply bind_Some in H as (m & _ & H).
  injection H as <-.
  set (files := Py.last_slice m _).
  destruct (create_thumbnails_frame files thumb_ok (set_image_files files s))
    as (_ & Hi & Hf & He & Hc & Ht & Hu & _).
  simpl in Hi, Hf, He, Hc, Ht, Hu.
  assert (Hsub : files ⊆ (filter is_jpeg listing).*1).
  { subst files. unfold Py.last_slice.
    assert (Hs : forall l : list (string * Z), (Py.sorted snd l).*1 ⊆ l.*1).
    { induction l as [|x l IH]; simpl; [done|].
      assert (Hins : forall y (k : list (string * Z)),
                 (Py.insert_by snd y k).*1 ⊆ y.1 :: k.*1).
      { intros y k. induction k as [|z k IHk]; simpl; [done|].
        case_match; simpl; [done|].
        apply list_subseteq_cons_iff. split.
        - apply list_elem_of_further, list_elem_of_here.
        - etrans; [apply IHk|]. intros w Hw.
          apply elem_of_cons in Hw as [->|Hw].
          + apply list_elem_of_here.
          + by do 2 apply list_elem_of_further. }
      etrans; [apply Hins|]. by apply list_subseteq_skip. }
    case_match; (etrans; [apply subseteq_drop|apply Hs]). }
  set (s1 := foldl _ _ _) in *. clearbody s1.
  destruct files as [|first files']; simpl; rewrite ?Hi, ?Hf, ?He, ?Hc, ?Ht, ?Hu; done.
Qed.








(** ** Start and stop of the cycling thread *)





Lemma reachable_run (s : State) (es : list event) :
  reachable s -> reachable (run s es).
Proof.
  intros (cf & listing & thumbs & ok & s0 & es0 & Hmain & ->).
  exists cf, listing, thumbs, ok, s0, (es0 ++ es). split; [done|].
  unfold run. by rewrite foldl_app.
Qed.










Lemma timer_expires_frame (s : State) (t : nat) :
  CONFIG (timer_expires t s) = CONFIG s /\
  current_image_index (timer_expires t s) = current_image_index s /\
  image_files (timer_expires t s) = image_files s /\
  cycling_enabled (timer_expires t s) = cycling_enabled s /\
  cycle_thread (timer_expires t s) = cycle_thread s /\
  displayed (timer_expires t s) = displayed s.
Proof. unfold timer_expires. repeat case_match; done. Qed.













(** ** Eviction and the files on disk *)

Lemma upload_image_cases (file : UploadFile) (now : datetime) (ok : bool)
    (s : State) :
  ((upload_image file now ok s).2 = s /\
   succeeded (upload_image file now ok s).1 = false /\ ~ accepted file s) \/
  (accepted file s /\
   upload_image file now ok s = store ("image_" +:+ strftime now +:+ ".jpg") ok s).
Proof.
  unfold upload_image, accepted.
  destruct (is_heic file && negb HEIC_SUPPORT) eqn:Eh.
  { left. simpl. repeat split. by intros [? _]. }
  destruct (Image_open (contents file)) as [image|e] eqn:Eo.
  2:{ left. simpl. repeat split. intros (_ & ? & ? & ? & ? & _). congruence. }
  destruct (CONFIG s !! "display_size") as [v|] eqn:Ev; simpl.
  2:{ left. repeat split. intros (_ & ? & ? & ? & ? & ? & _). congruence. }
  destruct (as_size v) as [target_size|] eqn:Es; simpl.
  2:{ left. repeat split. intros (_ & ? & ? & ? & ? & ? & ? & _). congruence. }
  destruct (resize_and_crop_image image target_size) as [im|] eqn:Er.
  2:{ left. repeat split. intros (_ & ? & ? & ? & ? & ? & ? & [? ?]).
      congruence. }
  right. split; [|reflexivity].
  split; [done|]. exists image, target_size, v. rewrite Er. eauto.
Qed.

Lemma thumb_name_inj (a b : string) : thumb_name a = thumb_name b -> a = b.
Proof. unfold thumb_name. cbn. intros H. by simplify_eq. Qed.

Lemma create_thumbnail_thumbnails (name : string) (ok : bool) (s : State) :
  thumbnails (create_thumbnail name ok s) ⊆ thumbnails s ∪ {[thumb_name name]}.
Proof.
  unfold create_thumbnail. repeat case_match; simpl;
    solve [apply union_subseteq_l | reflexivity].
Qed.

(** What [store] leaves behind, with [s1] the state after the thumbnail was
    made: either nothing is removed, or the head [oldest] of the list is, and
    then neither its file nor its thumbnail is on disk unless the thumbnail
    was there without the file. *)
Lemma store_outcome (name : string) (ok : bool) (s : State) :
  let s1 := create_thumbnail name ok
              (set_image_files (image_files s ++ [name])
                 (set_uploaded_images (uploaded_images s ∪ {[name]}) s)) in
  let s' := (store name ok s).2 in
  (image_files s' = image_files s ++ [name] /\
   uploaded_images s' = uploaded_images s1 /\ thumbnails s' = thumbnails s1 /\
   ~ over_limit s) \/
  (exists oldest rest,
     image_files s ++ [name] = oldest :: rest /\ image_files s' = rest /\
     ((uploaded_images s' = uploaded_images s1 ∖ {[oldest]} /\
       thumbnails s' = thumbnails s1 ∖ {[thumb_name oldest]}) \/
      ((oldest ∉ uploaded_images s1) /\
       uploaded_images s' = uploaded_images s1 /\ thumbnails s' = thumbnails s1))).
Proof.
  intros s1 s'. subst s'. unfold store.
  cbn [image_files set_image_files set_uploaded_images uploaded_images].
  fold s1.
  destruct (create_thumbnail_frame name ok
              (set_image_files (image_files s ++ [name])
                 (set_uploaded_images (uploaded_images s ∪ {[name]}) s)))
    as (HC & _ & Hf & _ & _ & _ & Hu & _).
  fold s1 in HC, Hf, Hu. simpl in HC, Hf, Hu.
  assert (Hlen : Z.of_nat (length (image_files s1)) =
                 Z.of_nat (length (image_files s)) + 1).
  { rewrite Hf, length_app. simpl. lia. }
  rewrite HC, Hlen, Hf.
  destruct (CONFIG s !! "max_images") as [v|] eqn:Ev; simpl.
  2:{ left. repeat split; try done. intros (? & ? & _). congruence. }
  destruct (int_gt _ v) as [[|]|] eqn:Eg; simpl.
  - right. destruct (image_files s ++ [name]) as [|oldest rest] eqn:El.
    { by destruct (image_files s). }
    exists oldest, rest. split; [done|].
    destruct (bool_decide (oldest ∈ uploaded_images s1)) eqn:Ed; simpl.
    + split; [done|]. left. done.
    + split; [done|]. right. apply bool_decide_eq_false in Ed. done.
  - left. repeat split; try done. intros (v' & Hv' & Hg). congruence.
  - left. repeat split; try done. intros (v' & Hv' & Hg). congruence.
Qed.

Lemma store_files_inv (name : string) (ok : bool) (s : State) :
  files_inv s -> files_inv (store name ok s).2.
Proof.
  intros Hinv.
  pose proof (create_thumbnail_thumbnails name ok
                (set_image_files (image_files s ++ [name])
                   (set_uploaded_images (uploaded_images s ∪ {[name]}) s))) as HT.
  destruct (create_thumbnail_frame name ok
              (set_image_files (image_files s ++ [name])
                 (set_uploaded_images (uploaded_images s ∪ {[name]}) s)))
    as (_ & _ & Hf & _ & _ & _ & Hu & _).
  simpl in HT, Hf, Hu.
  assert (H1 : forall p, p ∈ image_files s ++ [name] ->
             thumb_name p ∈ thumbnails (create_thumbnail name ok
                (set_image_files (image_files s ++ [name])
                   (set_uploaded_images (uploaded_images s ∪ {[name]}) s))) ->
             p ∈ uploaded_images s ∪ {[name]}).
  { intros p Hp Ht. apply elem_of_app in Hp as [Hp|Hp].
    - apply HT in Ht. apply elem_of_union in Ht as [Ht|Ht].
      + apply elem_of_union_l. by apply Hinv.
      + apply elem_of_singleton in Ht. apply thumb_name_inj in Ht as ->.
        apply elem_of_union_r. by apply elem_of_singleton.
    - apply list_elem_of_singleton in Hp as ->.
      apply elem_of_union_r. by apply elem_of_singleton. }
  unfold files_inv.
  destruct (store_outcome name ok s)
    as [(Hf' & Hu' & Ht' & _)|(oldest & rest & Hl & Hf' & Hdisk)].
  - rewrite Hf', Hu', Ht', Hu. exact H1.
  - rewrite Hf'. intros p Hp Ht.
    assert (Hp' : p ∈ image_files s ++ [name]).
    { rewrite Hl. by apply list_elem_of_further. }
    destruct Hdisk as [(Hu' & Ht')|(_ & Hu' & Ht')]; rewrite Hu', Hu;
      rewrite Ht' in Ht.
    + apply elem_of_difference in Ht as [Ht Hne].
      apply elem_of_difference. split; [by apply H1|].
      intros Heq. apply elem_of_singleton in Heq as ->.
      apply Hne. by apply elem_of_singleton.
    + by apply H1.
Qed.

Lemma thread_runs_disk (s : State) (t : nat) :
  image_files (thread_runs t s) = image_files s /\
  uploaded_images (thread_runs t s) = uploaded_images s /\
  thumbnails (thread_runs t s) = thumbnails s.
Proof.
  unfold thread_runs. destruct (threads s !! t) as [[| |]|]; try done.
  destruct (cycling_enabled s); [|done].
  unfold cycle_body. destruct (image_files s) eqn:E; simpl; [by rewrite E|].
  destruct (Py.getitem _ _); simpl; by rewrite ?E.
Qed.

Lemma step_files_inv (s : State) (e : event) :
  files_inv s -> files_inv (step s e).
Proof.
  intros H. destruct e as [file now ok|config|action|t|t]; simpl.
  - destruct (upload_image_cases file now ok s) as [(-> & _)|(_ & ->)];
      [done|by apply store_files_inv].
  - exact H.
  - unfold control_cycling. repeat case_match; simpl; try exact H.
    unfold files_inv.
    destruct (start_cycling_frame (set_cycling_enabled true s))
      as (_ & _ & -> & _ & -> & -> & _). exact H.
  - unfold timer_expires. repeat case_match; exact H.
  - unfold files_inv.
    destruct (thread_runs_disk s t) as (-> & -> & ->). exact H.
Qed.

Lemma main_files_inv config_file listing thumbs thumb_ok (s0 : State) :
  main config_file listing thumbs thumb_ok = Some s0 -> files_inv s0.
Proof.
  unfold main, startup_event, initial_globals. intros H.
  apply fmap_Some in H as (s1 & H1 & ->).
  apply load_existing_images_frame in H1 as (_ & _ & _ & _ & Hu & Hsub).
  simpl in Hu. unfold files_inv.
  destruct (start_cycling_frame s1) as (_ & _ & -> & _ & -> & _).
  intros p Hp _. rewrite Hu. apply elem_of_list_to_set.
  apply Hsub in Hp. apply list_elem_of_fmap in Hp as (x & -> & Hx).
  apply list_elem_of_fmap. exists x. split; [done|].
  by apply list_elem_of_filter in Hx as [_ Hx].
Qed.

Lemma reachable_files_inv (s : State) : reachable s -> files_inv s.
Proof.
  intros (cf & listing & thumbs & ok & s0 & es & Hmain & ->).
  pose proof (main_files_inv _ _ _ _ _ Hmain) as H. clear Hmain.
  revert s0 H. induction es as [|e es IH]; intros s0 H; [done|].
  simpl. apply IH. by apply step_files_inv.
Qed.

(** C8: in every reachable state, an upload that is stored while the
    collection is at the limit removes the oldest element from the list, and
    afterwards neither the file of that element nor its thumbnail is on
    disk. *)
Theorem eviction_deletes_artifacts (file : UploadFile) (now : datetime)
    (ok : bool) (s : State) :
  reachable s -> accepted file s -> over_limit s ->
  exists oldest rest,
    image_files s ++ ["image_" +:+ strftime now +:+ ".jpg"] = oldest :: rest /\
    image_files (upload_image file now ok s).2 = rest /\
    (oldest ∉ uploaded_images (upload_image file now ok s).2) /\
    thumb_name oldest ∉ thumbnails (upload_image file now ok s).2.
Proof.
  intros Hr Hacc Hover. pose proof (reachable_files_inv s Hr) as Hinv.
  destruct (upload_image_cases file now ok s) as [(_ & _ & Hn)|(_ & ->)];
    [done|].
  set (name := "image_" +:+ strftime now +:+ ".jpg").
  pose proof (create_thumbnail_thumbnails name ok
                (set_image_files (image_files s ++ [name])
                   (set_uploaded_images (uploaded_images s ∪ {[name]}) s))) as HT.
  destruct (create_thumbnail_frame name ok
              (set_image_files (image_files s ++ [name])
                 (set_uploaded_images (uploaded_images s ∪ {[name]}) s)))
    as (_ & _ & _ & _ & _ & _ & Hu & _).
  simpl in HT, Hu.
  destruct (store_outcome name ok s)
    as [(_ & _ & _ & Hno)|(oldest & rest & Hl & Hf' & Hdisk)]; [done|].
  exists oldest, rest. split; [done|]. split; [done|].
  destruct Hdisk as [(-> & ->)|(Hmiss & -> & ->)].
  - split; apply not_elem_of_difference; right; by apply elem_of_singleton.
  - split; [done|]. rewrite Hu in Hmiss.
    apply not_elem_of_union in Hmiss as [Hold Hne].
    apply not_elem_of_singleton in Hne.
    intros Ht. apply HT in Ht. apply elem_of_union in Ht as [Ht|Ht].
    + apply Hold, Hinv; [|done].
      destruct (image_files s) as [|x l] eqn:E; simpl in Hl.
      * by injection Hl as <- _.
      * injection Hl as -> _. apply list_elem_of_here.
    + apply elem_of_singleton in Ht. by apply thumb_name_inj in Ht.
Qed.

(** ** Failed uploads *)

(** The four ways [upload_image] can answer, by the place it returns from. *)
Lemma upload_response_cases (file : UploadFile) (now : datetime) (ok : bool)
    (s : State) :
  let r := (upload_image file now ok s).1 in
  (is_heic file = true /\ HEIC_SUPPORT = false /\
   r = HTTPException 400 UnsupportedFormat heic_unsupported) \/
  (~ (is_heic file = true /\ HEIC_SUPPORT = false) /\
   ((exists e, Image_open (contents file) = inr e /\
       r = HTTPException 400 DecodeFailed
             (if is_heic file then "Error processing HEIC file: " +:+ e else e)) \/
    (exists image, Image_open (contents file) = inl image /\
       ((exists detail, r = HTTPException 400 Raised detail) \/
        (exists message name, r = OK message name))))).
Proof.
  intros r. subst r. unfold upload_image.
  destruct (is_heic file && negb HEIC_SUPPORT) eqn:Eh.
  { apply andb_true_iff in Eh as [-> Hs]. apply negb_true_iff in Hs as ->.
    by left. }
  right. split.
  { intros [H1 H2]. by rewrite H1, H2 in Eh. }
  destruct (Image_open (contents file)) as [image|e].
  - right. exists image. split; [done|].
    repeat case_match; simpl; eauto.
  - left. exists e. done.
Qed.

(** C9: an upload is refused as an unsupported format, with status 400 and
    the fixed explanation, exactly when the file is a HEIC file (its name
    ends in .heic or .heif, in any case) and the HEIC plugin is missing;
    otherwise bytes that Pillow cannot decode give status 400 with the text
    of Pillow's error, and that is the only way to a decode failure. *)
Theorem upload_failure_kinds (file : UploadFile) (now : datetime) (ok : bool)
    (s : State) :
  let r := (upload_image file now ok s).1 in
  ((exists code detail, r = HTTPException code UnsupportedFormat detail) <->
   is_heic file = true /\ HEIC_SUPPORT = false) /\
  (is_heic file = true /\ HEIC_SUPPORT = false ->
   r = HTTPException 400 UnsupportedFormat heic_unsupported) /\
  ((exists code detail, r = HTTPException code DecodeFailed detail) <->
   ~ (is_heic file = true /\ HEIC_SUPPORT = false) /\
   exists e, Image_open (contents file) = inr e) /\
  (forall e, ~ (is_heic file = true /\ HEIC_SUPPORT = false) ->
     Image_open (contents file) = inr e ->
     r = HTTPException 400 DecodeFailed
           (if is_heic file then "Error processing HEIC file: " +:+ e else e)).
Proof.
  intros r.
  destruct (upload_response_cases file now ok s)
    as [(Hh & Hs & Hr)|(Hn & [(e & He & Hr)|(im & Hi & [(d & Hr)|(m & f & Hr)])])];
    fold r in Hr; rewrite Hr; clear Hr.
  - split; [|split; [|split]].
    + split; [done|]. intros _. eauto.
    + done.
    + split; [intros (c & d & H); discriminate|]. intros [Hn _]. by destruct Hn.
    + intros e Hn. by destruct Hn.
  - split; [|split; [|split]].
    + split; [intros (c & d & H); discriminate|done].
    + done.
    + split; [|eauto]. intros _. eauto.
    + intros e' _ He'. rewrite He in He'. by injection He' as ->.
  - split; [|split; [|split]].
    + split; [intros (c & d' & H); discriminate|done].
    + done.
    + split; [intros (c & d' & H); discriminate|].
      intros (_ & e & He). congruence.
    + intros e _ He. congruence.
  - split; [|split; [|split]].
    + split; [intros (c & d' & H); discriminate|done].
    + done.
    + split; [intros (c & d' & H); discriminate|].
      intros (_ & e & He). congruence.
    + intros e _ He. congruence.
Qed.

(** C10: an upload refused as an unsupported format or because the bytes do
    not decode answers 400 and returns the state it was given: the list of
    images, the cursor, both directories and everything else are as
    before; and these two refusals are what a HEIC file without the plugin
    and undecodable bytes get. *)
Theorem refused_upload_changes_nothing (file : UploadFile) (now : datetime)
    (ok : bool) (s : State) :
  (forall code why detail s',
     upload_image file now ok s = (HTTPException code why detail, s') ->
     why <> Raised -> code = 400 /\ s' = s) /\
  ((is_heic file = true /\ HEIC_SUPPORT = false) \/
   (exists e, Image_open (contents file) = inr e) ->
   exists why detail,
     why <> Raised /\
     upload_image file now ok s = (HTTPException 400 why detail, s)).
Proof.
  split.
  - intros code why detail s'. unfold upload_image.
    repeat case_match; intros ? ?; simplify_eq; done.
  - unfold upload_image. intros [[-> ->]|[e He]]; simpl.
    + by exists UnsupportedFormat, heic_unsupported.
    + destruct (is_heic file && negb HEIC_SUPPORT).
      * by exists UnsupportedFormat, heic_unsupported.
      * rewrite He. by eexists DecodeFailed, _.
Qed.

(** ** Configuration updates *)

(** C2, as the code has it: every update succeeds; the fields of the given
    mapping replace or extend those of [CONFIG], whatever their values, the
    other fields keep theirs, the result is written to [config.json] and
    nothing else changes. *)
Theorem update_config_merges (config : gmap string json) (s : State) :
  update_config config s =
    (OK "Configuration updated" None,
     set_config_json (Some (config ∪ CONFIG s)) (set_CONFIG (config ∪ CONFIG s) s)) /\
  (forall k v, config !! k = Some v -> CONFIG (update_config config s).2 !! k = Some v) /\
  (forall k, config !! k = None ->
             CONFIG (update_config config s).2 !! k = CONFIG s !! k) /\
  config_json (update_config config s).2 = Some (CONFIG (update_config config s).2).
Proof.
  split; [reflexivity|]. simpl. split; [|split; [|done]].
  - intros k v H. by apply lookup_union_Some_l.
  - intros k H. by apply lookup_union_r.
Qed.

(** ** Loading the directory at startup *)

Lemma insert_by_perm {A} (key : A -> Z) (x : A) (l : list A) :
  Py.insert_by key x l ≡ₚ x :: l.
Proof.
  induction l as [|y l IH]; simpl; [done|].
  case_match; [done|]. rewrite IH. apply Permutation_swap.
Qed.

Lemma sorted_perm {A} (key : A -> Z) (l : list A) : Py.sorted key l ≡ₚ l.
Proof.
  induction l as [|x l IH]; simpl; [done|].
  rewrite insert_by_perm. by rewrite IH.
Qed.

Lemma insert_by_sorted {A} (key : A -> Z) (x : A) (l : list A) :
  StronglySorted (fun a b => key a <= key b) l ->
  StronglySorted (fun a b => key a <= key b) (Py.insert_by key x l).
Proof.
  induction 1 as [|y l Hs IH Hy]; simpl.
  - repeat constructor.
  - destruct (Z.leb_spec (key x) (key y)) as [Hle|Hgt].
    + constructor; [by constructor|].
      constructor; [done|]. eapply Forall_impl; [exact Hy|].
      intros z Hz. simpl in *. lia.
    + constructor; [done|].
      rewrite (insert_by_perm key x l). constructor; [lia|done].
Qed.

Lemma sorted_sorted {A} (key : A -> Z) (l : list A) :
  StronglySorted (fun a b => key a <= key b) (Py.sorted key l).
Proof.
  induction l as [|x l IH]; simpl; [constructor|]. by apply insert_by_sorted.
Qed.

Lemma last_slice_fmap {A B} (f : A -> B) (m : Z) (l : list A) :
  Py.last_slice m (f <$> l) = f <$> Py.last_slice m l.
Proof. unfold Py.last_slice. rewrite length_fmap. case_match; by rewrite fmap_drop. Qed.

Lemma load_existing_images_files listing thumb_ok (s s' : State) (M : Z) :
  CONFIG s !! "max_images" = Some (JInt M) ->
  load_existing_images listing thumb_ok s = Some s' ->
  image_files s' = (kept_entries M listing).*1.
Proof.
  unfold load_existing_images. intros HM. rewrite HM. simpl. intros [= <-].
  set (files := Py.last_slice M _).
  destruct (create_thumbnails_frame files thumb_ok (set_image_files files s))
    as (_ & _ & Hf & _).
  simpl in Hf. set (s1 := foldl _ _ _) in *. clearbody s1.
  assert (Hfiles : files = (kept_entries M listing).*1).
  { unfold files, kept_entries. apply last_slice_fmap. }
  destruct files; simpl; by rewrite Hf.
Qed.

(** X1: what [load_existing_images] keeps. With [max_images] an integer [M],
    the collection is the list of names of the kept entries; kept and dropped
    entries together are the JPEG entries of the directory; the kept ones are
    in ascending order of modification time and none of them is older than a
    dropped one; for positive [M] they are the [M] newest (all, if there are
    fewer), and for [M = 0] the slice [[-0:]] keeps every one. *)
Theorem load_keeps_newest listing thumb_ok (s s' : State) (M : Z) :
  CONFIG s !! "max_images" = Some (JInt M) ->
  load_existing_images listing thumb_ok s = Some s' ->
  exists dropped,
    dropped ++ kept_entries M listing ≡ₚ filter is_jpeg listing /\
    image_files s' = (kept_entries M listing).*1 /\
    StronglySorted (fun a b => a.2 <= b.2) (kept_entries M listing) /\
    (forall d k, d ∈ dropped -> k ∈ kept_entries M listing -> d.2 <= k.2) /\
    (0 < M -> length (image_files s')
              = Nat.min (Z.to_nat M) (length (filter is_jpeg listing))) /\
    (M = 0 -> length (image_files s') = length (filter is_jpeg listing)).
Proof.
  intros HM Hload.
  pose proof (load_existing_images_files _ _ _ _ _ HM Hload) as Hf.
  pose proof (sorted_perm snd (filter is_jpeg listing)) as Hperm.
  pose proof (sorted_sorted snd (filter is_jpeg listing)) as Hsorted.
  assert (Hlen : length (Py.sorted snd (filter is_jpeg listing))
                 = length (filter is_jpeg listing)) by (by rewrite Hperm).
  unfold kept_entries in *. unfold Py.last_slice in *.
  set (L := Py.sorted snd (filter is_jpeg listing)) in *.
  destruct (Z.ltb_spec 0 M) as [Hpos|Hnonpos].
  - exists (take (length L - Z.to_nat M) L).
    rewrite take_drop. split; [done|]. split; [done|].
    rewrite <- (take_drop (length L - Z.to_nat M) L) in Hsorted.
    split; [by eapply StronglySorted_app_1_r|].
    split; [intros d k Hd Hk;
            exact (StronglySorted_app_1_elem_of _ _ _ d k Hsorted Hd Hk)|].
    split; [|lia]. intros _. rewrite Hf, length_fmap, length_drop. lia.
  - exists (take (Z.to_nat (- M)) L).
    rewrite take_drop. split; [done|]. split; [done|].
    rewrite <- (take_drop (Z.to_nat (- M)) L) in Hsorted.
    split; [by eapply StronglySorted_app_1_r|].
    split; [intros d k Hd Hk;
            exact (StronglySorted_app_1_elem_of _ _ _ d k Hsorted Hd Hk)|].
    split; [lia|]. intros ->. rewrite Hf, length_fmap, length_drop.
    simpl. lia.
Qed.

Lemma create_thumbnail_elem (name : string) (ok : bool) (s : State) (x : string) :
  x ∈ thumbnails (create_thumbnail name ok s) <->
  x ∈ thumbnails s \/
  (x = thumb_name name /\ name ∈ uploaded_images s /\ ok = true).
Proof.
  unfold create_thumbnail.
  destruct (bool_decide (thumb_name name ∈ thumbnails s)) eqn:Et.
  - apply bool_decide_eq_true in Et. split; [by left|].
    intros [H|(-> & _)]; done.
  - destruct (bool_decide (name ∈ uploaded_images s)) eqn:Eu; simpl.
    + apply bool_decide_eq_true in Eu. destruct ok; simpl.
      * rewrite elem_of_union, elem_of_singleton. split.
        -- intros [H|H]; [by left|by right].
        -- intros [H|(H & _)]; [by left|by right].
      * split; [by left|]. by intros [H|(_ & _ & H)].
    + apply bool_decide_eq_false in Eu. split; [by left|].
      by intros [H|(_ & H & _)].
Qed.

Lemma create_thumbnails_elem (names : list string) (ok : string -> bool)
    (s : State) (x : string) :
  x ∈ thumbnails (foldl (fun s img => create_thumbnail img (ok img) s) s names) <->
  x ∈ thumbnails s \/
  (exists n, n ∈ names /\ x = thumb_name n /\ n ∈ uploaded_images s /\ ok n = true).
Proof.
  revert s. induction names as [|n names IH]; intros s; simpl.
  - split; [by left|]. intros [H|(n & Hn & _)]; [done|]. by apply elem_of_nil in Hn.
  - rewrite IH, create_thumbnail_elem.
    destruct (create_thumbnail_frame n (ok n) s) as (_ & _ & _ & _ & _ & _ & -> & _).
    split.
    + intros [[H|(-> & Hu & Ho)]|(m & Hm & -> & Hu & Ho)].
      * by left.
      * right. exists n. split; [apply list_elem_of_here|done].
      * right. exists m. split; [by apply list_elem_of_further|done].
    + intros [H|(m & Hm & -> & Hu & Ho)]; [by left; left|].
      apply elem_of_cons in Hm as [->|Hm].
      * left. by right.
      * right. by exists m.
Qed.

Lemma load_existing_images_effects listing thumb_ok (s s' : State) :
  load_existing_images listing thumb_ok s = Some s' ->
  displayed s' = displayed s ++ take 1 (image_files s') /\
  (forall x, x ∈ thumbnails s' <->
     x ∈ thumbnails s \/
     (exists n, n ∈ image_files s' /\ x = thumb_name n /\
                n ∈ uploaded_images s /\ thumb_ok n = true)).
Proof.
  unfold load_existing_images. intros H.
  apply bind_Some in H as (v & _ & H).
  apply bind_Some in H as (m & _ & H).
  injection H as <-.
  set (files := Py.last_slice m _).
  destruct (create_thumbnails_frame files thumb_ok (set_image_files files s))
    as (_ & _ & Hf & _ & _ & _ & _ & Hd).
  pose proof (create_thumbnails_elem files thumb_ok (set_image_files files s))
    as Ht.
  simpl in Hf, Hd, Ht. set (s1 := foldl _ _ _) in *. clearbody s1.
  destruct files as [|first files']; simpl; rewrite Hf, Hd.
  - split; [by rewrite app_nil_r|]. exact Ht.
  - split; [done|]. exact Ht.
Qed.

(** X2: after startup every image of the collection has a thumbnail if it
    had one before or one could be generated, and only then (a failed
    generation is skipped, the others are still made); the thumbnails that
    were there are kept. *)
Theorem startup_thumbnails config_file listing thumbs thumb_ok (s0 : State) :
  main config_file listing thumbs thumb_ok = Some s0 ->
  thumbs ⊆ thumbnails s0 /\
  (forall img, img ∈ image_files s0 ->
     (thumb_name img ∈ thumbnails s0 <->
      thumb_name img ∈ thumbs \/ thumb_ok img = true)).
Proof.
  unfold main, startup_event. intros H.
  apply fmap_Some in H as (s1 & H1 & ->).
  pose proof (load_existing_images_effects _ _ _ _ H1) as [_ Ht].
  apply load_existing_images_frame in H1 as (_ & _ & _ & _ & _ & Hsub).
  destruct (start_cycling_frame s1) as (_ & _ & -> & _ & _ & -> & _).
  simpl in Ht. split.
  - intros x Hx. apply Ht. by left.
  - intros img Himg. rewrite Ht. split.
    + intros [H|(n & _ & Hn & _ & Hok)]; [by left|].
      apply thumb_name_inj in Hn as ->. by right.
    + intros [H|Hok]; [by left|]. right. exists img. repeat split; try done.
      apply elem_of_list_to_set.
      apply Hsub in Himg. apply list_elem_of_fmap in Himg as (e & -> & He).
      apply list_elem_of_fmap. exists e. split; [done|].
      by apply list_elem_of_filter in He as [_ He].
Qed.

(** X3: the state after startup. The cursor is 0, cycling is enabled with
    exactly one thread, about to make its first pass, and the oldest kept
    image, if there is one, has been rendered; the first pass of the thread
    renders that image a second time and moves the cursor on. *)
Theorem startup_state config_file listing thumbs thumb_ok (s0 : State) :
  main config_file listing thumbs thumb_ok = Some s0 ->
  current_image_index s0 = 0 /\ cycling_enabled s0 = true /\
  threads s0 = [Ready] /\ cycle_thread s0 = Some O /\
  displayed s0 = take 1 (image_files s0) /\
  displayed (thread_runs 0 s0) = take 1 (image_files s0) ++ take 1 (image_files s0) /\
  (image_files s0 <> [] ->
   current_image_index (thread_runs 0 s0)
   = 1 mod Z.of_nat (length (image_files s0))).
Proof.
  unfold main, startup_event, initial_globals. intros H.
  apply fmap_Some in H as (s1 & H1 & ->).
  pose proof (load_existing_images_effects _ _ _ _ H1) as [Hd _].
  apply load_existing_images_frame in H1 as (Hi & He & Hc & Ht & _).
  simpl in Hd, Hi, He, Hc, Ht.
  assert (Hs : start_cycling s1 = set_threads [Ready] (set_cycle_thread (Some O) s1)).
  { unfold start_cycling. rewrite Hc, Ht. reflexivity. }
  rewrite Hs. simpl. repeat (split; [done|]).
  unfold thread_runs. simpl. rewrite He. unfold cycle_body. simpl.
  destruct (image_files s1) as [|first rest] eqn:E; simpl.
  - rewrite Hd. simpl. done.
  - rewrite Hi. simpl. rewrite Hd. simpl. split; [done|]. intros _. done.
Qed.

(** ** The configuration dictionary *)

Lemma default_keys_present (c : gmap string json) (k : string) :
  k ∈ config_keys -> is_Some ((c ∪ default_CONFIG) !! k).
Proof.
  intros Hk. apply lookup_union_is_Some. right.
  unfold config_keys in Hk.
  repeat (apply elem_of_cons in Hk as [->|Hk]; [by eexists|]).
  by apply elem_of_nil in Hk.
Qed.

Lemma default_CONFIG_keys (k : string) :
  is_Some (default_CONFIG !! k) -> k ∈ config_keys.
Proof.
  unfold default_CONFIG, config_keys. intros H.
  repeat (apply lookup_insert_is_Some in H as [<-|[_ H]];
          [by repeat first [apply list_elem_of_here|apply list_elem_of_further]|]).
  rewrite lookup_empty in H. by destruct H.
Qed.

Lemma thread_runs_CONFIG (s : State) (t : nat) :
  CONFIG (thread_runs t s) = CONFIG s.
Proof.
  unfold thread_runs. destruct (threads s !! t) as [[| |]|]; try done.
  destruct (cycling_enabled s); [|done].
  unfold cycle_body. destruct (image_files s); [done|].
  destruct (Py.getitem _ _); done.
Qed.

Lemma step_CONFIG_keys (s : State) (e : event) (k : string) :
  is_Some (CONFIG s !! k) -> is_Some (CONFIG (step s e) !! k).
Proof.
  intros H. destruct e as [file now ok|config|action|t|t]; simpl.
  - by destruct (upload_image_files file now ok s) as (-> & _).
  - apply lookup_union_is_Some. by right.
  - unfold control_cycling. repeat case_match; simpl; try done.
    by destruct (start_cycling_frame (set_cycling_enabled true s)) as (-> & _).
  - by destruct (timer_expires_frame s t) as (-> & _).
  - by rewrite thread_runs_CONFIG.
Qed.

Lemma main_CONFIG_keys config_file listing thumbs thumb_ok (s0 : State)
    (k : string) :
  main config_file listing thumbs thumb_ok = Some s0 ->
  k ∈ config_keys -> is_Some (CONFIG s0 !! k).
Proof.
  intros Hmain Hk.
  unfold main, startup_event in Hmain.
  apply fmap_Some in Hmain as (s1 & H1 & ->).
  destruct (start_cycling_frame s1) as (-> & _).
  unfold load_existing_images in H1.
  apply bind_Some in H1 as (v & _ & H1).
  apply bind_Some in H1 as (m & _ & H1). injection H1 as <-.
  set (files := Py.last_slice m _).
  destruct (create_thumbnails_frame files thumb_ok
              (set_image_files files
                 (initial_globals config_file listing thumbs)))
    as (HC & _).
  set (s1 := foldl _ _ _) in *. clearbody s1.
  assert (HC' : CONFIG (match files with [] => s1
                        | first :: _ => display_image first s1 end) = CONFIG s1)
    by (by destruct files).
  rewrite HC', HC. simpl.
  destruct config_file as [c|]; [by apply default_keys_present|].
  rewrite <- (left_id_L ∅ (∪) default_CONFIG). by apply default_keys_present.
Qed.

Lemma run_CONFIG_keys (s : State) (es : list event) (k : string) :
  is_Some (CONFIG s !! k) -> is_Some (CONFIG (run s es) !! k).
Proof.
  revert s. induction es as [|e es IH]; intros s H; [done|].
  simpl. apply IH. by apply step_CONFIG_keys.
Qed.

(** X4: in every reachable state [CONFIG] has the four keys the source
    gives it, so that no handler meets a [KeyError]: a [config.json] or an
    update can change their values and add keys, nothing removes one. *)
Theorem config_keys_always_present (s : State) (k : string) :
  reachable s -> k ∈ config_keys -> is_Some (CONFIG s !! k).
Proof.
  intros (cf & listing & thumbs & ok & s0 & es & Hmain & ->) Hk.
  apply run_CONFIG_keys.
  exact (main_CONFIG_keys cf listing thumbs ok s0 k Hmain Hk).
Qed.

(** X5: an update survives a restart. What [update_config] has written to
    [config.json] is what [__main__] loads into [CONFIG] at the next start,
    for any upload directory, and the startup event keeps it: the new process
    runs with the configuration the old one had after the update. *)
Theorem config_survives_restart (config : gmap string json) (s s0 : State)
    listing thumbs thumb_ok :
  reachable s ->
  main (config_json (update_config config s).2) listing thumbs thumb_ok = Some s0 ->
  CONFIG (initial_globals (config_json (update_config config s).2) listing thumbs)
    = CONFIG (update_config config s).2 /\
  get_config s0 = get_config (update_config config s).2.
Proof.
  intros Hr Hmain.
  assert (Hkeys : forall k, k ∈ config_keys -> is_Some (CONFIG s !! k)).
  { intros k Hk.
    destruct Hr as (cf & listing' & thumbs' & ok' & s1 & es & Hm & ->).
    apply run_CONFIG_keys.
    exact (main_CONFIG_keys cf listing' thumbs' ok' s1 k Hm Hk). }
  assert (Hinit : CONFIG (initial_globals (config_json (update_config config s).2)
                            listing thumbs) = CONFIG (update_config config s).2).
  { simpl. apply map_eq. intros k.
    destruct ((config ∪ CONFIG s) !! k) as [v|] eqn:E.
    - by apply lookup_union_Some_l.
    - rewrite lookup_union_r by done.
      destruct (default_CONFIG !! k) as [d|] eqn:Ed; [|done].
      assert (Hk : k ∈ config_keys)
        by (apply default_CONFIG_keys; by rewrite Ed).
      destruct (Hkeys k Hk) as [w Hw].
      apply lookup_union_None in E as [_ E]. congruence. }
  split; [exact Hinit|].
  unfold get_config. rewrite <- Hinit.
  unfold main, startup_event in Hmain.
  apply fmap_Some in Hmain as (s1 & H1 & ->).
  destruct (start_cycling_frame s1) as (-> & _).
  unfold load_existing_images in H1.
  apply bind_Some in H1 as (v & _ & H1).
  apply bind_Some in H1 as (m & _ & H1). injection H1 as <-.
  set (g := initial_globals _ _ _). set (files := Py.last_slice m _).
  destruct (create_thumbnails_frame files thumb_ok (set_image_files files g))
    as (HC & _).
  set (s1 := foldl _ _ _) in *. clearbody s1.
  destruct files; simpl; by rewrite HC.
Qed.

(** X6: two updates in a row are one update with the second mapping laid
    over the first: same answer, same [CONFIG], same [config.json]; so an
    update repeated changes nothing more. *)
Theorem update_config_compose (c1 c2 : gmap string json) (s : State) :
  update_config c2 (update_config c1 s).2 = update_config (c2 ∪ c1) s /\
  update_config c1 (update_config c1 s).2 = update_config c1 s.
Proof.
  unfold update_config. simpl. split.
  - by rewrite (assoc_L (∪) c2 c1 (CONFIG s)).
  - rewrite (assoc_L (∪) c1 c1 (CONFIG s)). by rewrite (idemp_L (∪) c1).
Qed.

(** ** More on start and stop *)

(** X7: [start_cycling] is idempotent in every state, whatever
    [cycle_thread] refers to: a second call right after the first finds the
    thread alive and starts nothing. *)
Theorem start_cycling_idempotent (s : State) :
  start_cycling (start_cycling s) = start_cycling s.
Proof.
  assert (Hspawn : forall s0 : State,
    start_cycling (set_threads (threads s0 ++ [Ready])
                     (set_cycle_thread (Some (length (threads s0))) s0))
    = set_threads (threads s0 ++ [Ready])
        (set_cycle_thread (Some (length (threads s0))) s0)).
  { intros s0. unfold start_cycling at 1. simpl. unfold is_alive.
    rewrite lookup_app_r, Nat.sub_diag by lia. reflexivity. }
  destruct (cycle_thread s) as [t|] eqn:Ec.
  - destruct (is_alive (threads s) t) eqn:Ea.
    + assert (E : start_cycling s = s)
        by (unfold start_cycling; by rewrite Ec, Ea).
      by rewrite !E.
    + assert (E : start_cycling s
                  = set_threads (threads s ++ [Ready])
                      (set_cycle_thread (Some (length (threads s))) s))
        by (unfold start_cycling; by rewrite Ec, Ea).
      rewrite E. apply Hspawn.
  - assert (E : start_cycling s
                = set_threads (threads s ++ [Ready])
                    (set_cycle_thread (Some (length (threads s))) s))
      by (unfold start_cycling; by rewrite Ec).
    rewrite E. apply Hspawn.
Qed.


(** ** One round of the cycler *)

Lemma ticks_shown (K : nat) (s : State) :
  image_files s <> [] ->
  0 <= current_image_index s < Z.of_nat (length (image_files s)) ->
  exists s' shown,
    ticks K s = Some s' /\
    image_files s' = image_files s /\
    current_image_index s' =
      (current_image_index s + Z.of_nat K) mod Z.of_nat (length (image_files s)) /\
    displayed s' = displayed s ++ shown /\
    length shown = K /\
    (forall i, (i < K)%nat ->
       shown !! i = image_files s !! Z.to_nat ((current_image_index s + Z.of_nat i)
                                               mod Z.of_nat (length (image_files s)))).
Proof.
  revert s. induction K as [|K IH]; intros s Hne Hc.
  - exists s, []. simpl. rewrite app_nil_r, Z.add_0_r, Z.mod_small by lia.
    repeat split; try done. intros i Hi. lia.
  - destruct (cycle_body_nonempty s Hne Hc) as (p & Hp & Hbody).
    set (s1 := set_current_image_index
                 ((current_image_index s + 1) mod Z.of_nat (length (image_files s)))
                 (display_image p s)) in *.
    assert (HL : 0 < Z.of_nat (length (image_files s))) by lia.
    destruct (IH s1) as (s' & shown & Ht & Hf & Hcur & Hd & Hlen & Hnth).
    { done. }
    { simpl. apply Z.mod_pos_bound. lia. }
    simpl in Hf, Hcur, Hd, Hnth.
    exists s', (p :: shown). simpl. rewrite Hbody. simpl.
    split; [exact Ht|]. split; [exact Hf|]. split.
    { rewrite Hcur, Zplus_mod_idemp_l. f_equal. lia. }
    split; [by rewrite Hd, <- app_assoc|]. split; [by rewrite Hlen|].
    intros [|i] Hi; simpl.
    + rewrite Z.add_0_r, Z.mod_small by lia. by rewrite Hp.
    + rewrite Hnth by lia. f_equal. f_equal.
      rewrite Zplus_mod_idemp_l. f_equal. lia.
Qed.

(** X9: one round. On a non-empty collection of length [L] with a valid
    cursor, [L] ticks render every image exactly once, starting with the one
    under the cursor and wrapping around at the end of the list, and bring
    the cursor back to where it was. *)
Theorem full_round (s : State) :
  image_files s <> [] ->
  0 <= current_image_index s < Z.of_nat (length (image_files s)) ->
  exists s',
    ticks (length (image_files s)) s = Some s' /\
    image_files s' = image_files s /\
    current_image_index s' = current_image_index s /\
    displayed s' = displayed s
                   ++ rotate (Z.to_nat (current_image_index s)) (image_files s) /\
    rotate (Z.to_nat (current_image_index s)) (image_files s) ≡ₚ image_files s.
Proof.
  intros Hne Hc.
  destruct (ticks_shown (length (image_files s)) s Hne Hc)
    as (s' & shown & Ht & Hf & Hcur & Hd & Hlen & Hnth).
  exists s'. split; [exact Ht|]. split; [exact Hf|]. split.
  { rewrite Hcur. rewrite <- (Z.mul_1_l (Z.of_nat (length (image_files s)))) at 1.
    rewrite Z_mod_plus_full. apply Z.mod_small. lia. }
  split.
  - rewrite Hd. f_equal. apply list_eq. intros i.
    destruct (decide (i < length (image_files s))%nat) as [Hi|Hi].
    + rewrite Hnth by done. rewrite lookup_rotate_r by done.
      f_equal. unfold rotate_nat_add. by rewrite Z2Nat.id by lia.
    + rewrite !lookup_ge_None_2; [done| |]; rewrite ?length_rotate; lia.
  - unfold rotate. by rewrite Permutation_app_comm, take_drop.
Qed.

(** ** More on uploads *)

(** [store] by the outcome of the bound check, with the state [s1] after the
    thumbnail was made written out. *)
Lemma store_cases (name : string) (ok : bool) (s : State) :
  let s1 := create_thumbnail name ok
              (set_image_files (image_files s ++ [name])
                 (set_uploaded_images (uploaded_images s ∪ {[name]}) s)) in
  match CONFIG s !! "max_images" ≫=
          int_gt (Z.of_nat (length (image_files s)) + 1) with
  | None => store name ok s = (HTTPException 400 Raised "max_images", s1)
  | Some false =>
      store name ok s
      = (OK "Image uploaded successfully" (Some name), display_image name s1)
  | Some true =>
      exists oldest rest,
        image_files s ++ [name] = oldest :: rest /\
        if bool_decide (oldest ∈ uploaded_images s ∪ {[name]}) then
          store name ok s
          = (OK "Image uploaded successfully" (Some name),
             display_image name
               (set_thumbnails (thumbnails s1 ∖ {[thumb_name oldest]})
                  (set_uploaded_images ((uploaded_images s ∪ {[name]}) ∖ {[oldest]})
                     (set_image_files rest s1))))
        else
          store name ok s
          = (HTTPException 400 Raised "No such file or directory",
             set_image_files rest s1)
  end.
Proof.
  intros s1. unfold store.
  cbn [image_files set_image_files set_uploaded_images uploaded_images].
  fold s1.
  destruct (create_thumbnail_frame name ok
              (set_image_files (image_files s ++ [name])
                 (set_uploaded_images (uploaded_images s ∪ {[name]}) s)))
    as (HC & _ & Hf & _ & _ & _ & Hu & _).
  fold s1 in HC, Hf, Hu. simpl in HC, Hf, Hu.
  assert (Hlen : Z.of_nat (length (image_files s1)) =
                 Z.of_nat (length (image_files s)) + 1).
  { rewrite Hf, length_app. simpl. lia. }
  rewrite HC, Hlen, Hf.
  destruct (CONFIG s !! "max_images") as [v|]; simpl; [|done].
  destruct (int_gt _ v) as [[|]|]; simpl; try done.
  destruct (image_files s ++ [name]) as [|oldest rest] eqn:El.
  { by destruct (image_files s). }
  exists oldest, rest. split; [done|]. simpl. rewrite Hu.
  by destruct (bool_decide (oldest ∈ uploaded_images s ∪ {[name]})).
Qed.

(** X10: the new image is rendered at once. A successful upload answers
    with the name the file was stored under and appends exactly that name to
    the render log, whether cycling is enabled or not; an upload that fails
    renders nothing; and no upload moves the cursor. *)
Theorem upload_renders_new_image (file : UploadFile) (now : datetime)
    (ok : bool) (s : State) :
  let r := upload_image file now ok s in
  let name := "image_" +:+ strftime now +:+ ".jpg" in
  (succeeded r.1 = true ->
   r.1 = OK "Image uploaded successfully" (Some name) /\
   displayed r.2 = displayed s ++ [name]) /\
  (succeeded r.1 = false -> displayed r.2 = displayed s) /\
  current_image_index r.2 = current_image_index s.
Proof.
  intros r name. subst r.
  split; [|split; [|apply upload_image_files]].
  - destruct (upload_image_cases file now ok s) as [(_ & Hs & _)|(_ & ->)];
      [congruence|]. fold name.
    pose proof (store_cases name ok s) as Hc. simpl in Hc.
    destruct (create_thumbnail_frame name ok
                (set_image_files (image_files s ++ [name])
                   (set_uploaded_images (uploaded_images s ∪ {[name]}) s)))
      as (_ & _ & _ & _ & _ & _ & _ & Hd). simpl in Hd.
    destruct (CONFIG s !! "max_images" ≫= _) as [[|]|].
    + destruct Hc as (oldest & rest & _ & Hc).
      destruct (bool_decide _); rewrite Hc; simpl; [|done].
      intros _. by rewrite Hd.
    + rewrite Hc. simpl. intros _. by rewrite Hd.
    + by rewrite Hc.
  - destruct (upload_image_cases file now ok s) as [(-> & _)|(_ & ->)];
      [done|]. fold name.
    pose proof (store_cases name ok s) as Hc. simpl in Hc.
    destruct (create_thumbnail_frame name ok
                (set_image_files (image_files s ++ [name])
                   (set_uploaded_images (uploaded_images s ∪ {[name]}) s)))
      as (_ & _ & _ & _ & _ & _ & _ & Hd). simpl in Hd.
    destruct (CONFIG s !! "max_images" ≫= _) as [[|]|].
    + destruct Hc as (oldest & rest & _ & Hc).
      destruct (bool_decide _); rewrite Hc; simpl; [done|].
      intros _. by rewrite Hd.
    + by rewrite Hc.
    + rewrite Hc. simpl. intros _. by rewrite Hd.
Qed.

Lemma step_length (s : State) (e : event) :
  (length (image_files s) <= length (image_files (step s e)))%nat.
Proof.
  destruct e as [file now ok|config|action|t|t]; simpl.
  - destruct (upload_image_files file now ok s) as (_ & _ & _ & _ & _ & Hf).
    destruct Hf as [-> | [-> | ->]]; [done| |].
    + rewrite length_app. lia.
    + destruct (image_files s); simpl; [lia|]. rewrite length_app. simpl. lia.
  - done.
  - unfold control_cycling. repeat case_match; simpl; try done.
    by destruct (start_cycling_frame (set_cycling_enabled true s))
      as (_ & _ & -> & _).
  - by destruct (timer_expires_frame s t) as (_ & _ & -> & _).
  - by destruct (thread_runs_disk s t) as (-> & _).
Qed.

(** X11: the collection never gets shorter. No run of uploads, updates,
    start/stop requests and ticks leaves fewer images than it found, and an
    upload that is stored while the length is at or above [max_images]
    leaves exactly as many: after [max_images] has been lowered the
    collection stays at its length, it is not cut down to the new bound. *)
Theorem collection_never_shrinks (s : State) :
  (forall es, (length (image_files s) <= length (image_files (run s es)))%nat) /\
  (forall file now ok,
     accepted file s -> over_limit s ->
     length (image_files (upload_image file now ok s).2)
     = length (image_files s)).
Proof.
  split.
  - intros es. revert s. induction es as [|e es IH]; intros s; [done|].
    simpl. etrans; [apply (step_length s e)|apply IH].
  - intros file now ok Hacc Hover.
    destruct (upload_image_cases file now ok s) as [(_ & _ & Hn)|(_ & ->)];
      [done|].
    destruct (store_outcome ("image_" +:+ strftime now +:+ ".jpg") ok s)
      as [(_ & _ & _ & Hno)|(oldest & rest & Hl & -> & _)]; [done|].
    apply (f_equal length) in Hl. rewrite length_app in Hl. simpl in Hl. lia.
Qed.

(** X12: a [max_images] that is no number. When the comparison
    [len(image_files) > CONFIG["max_images"]] raises, an upload that was
    decoded and resized is answered with status 400 although its file has
    been written and its name appended to the collection; nothing is evicted
    and nothing is rendered. *)
Theorem upload_with_unusable_limit (file : UploadFile) (now : datetime)
    (ok : bool) (s : State) (v : json) :
  accepted file s ->
  CONFIG s !! "max_images" = Some v ->
  int_gt (Z.of_nat (length (image_files s)) + 1) v = None ->
  let r := upload_image file now ok s in
  let name := "image_" +:+ strftime now +:+ ".jpg" in
  (exists detail, r.1 = HTTPException 400 Raised detail) /\
  image_files r.2 = image_files s ++ [name] /\
  name ∈ uploaded_images r.2 /\
  displayed r.2 = displayed s.
Proof.
  intros Hacc Hv Hgt r name. subst r.
  destruct (upload_image_cases file now ok s) as [(_ & _ & Hn)|(_ & ->)];
    [done|]. fold name.
  pose proof (store_cases name ok s) as Hc. simpl in Hc.
  rewrite Hv in Hc. simpl in Hc. rewrite Hgt in Hc. rewrite Hc. simpl.
  destruct (create_thumbnail_frame name ok
              (set_image_files (image_files s ++ [name])
                 (set_uploaded_images (uploaded_images s ∪ {[name]}) s)))
    as (_ & _ & Hf & _ & _ & _ & Hu & Hd). simpl in Hf, Hu, Hd.
  split; [by eexists|]. split; [done|]. split; [|done].
  rewrite Hu. apply elem_of_union_r. by apply elem_of_singleton.
Qed.

(** X13: when every listed image has its file and [max_images] is an
    integer, an upload succeeds exactly when it gets past the HEIC check,
    the decoder and the resizing: storing and evicting cannot fail. *)
Theorem upload_succeeds_iff_accepted (file : UploadFile) (now : datetime)
    (ok : bool) (s : State) (M : Z) :
  listed_on_disk s ->
  CONFIG s !! "max_images" = Some (JInt M) ->
  (succeeded (upload_image file now ok s).1 = true <-> accepted file s).
Proof.
  intros Hdisk HM.
  destruct (upload_image_cases file now ok s) as [(_ & Hs & Hn)|(Hacc & ->)].
  - split; [congruence|done].
  - split; [done|]. intros _.
    set (name := "image_" +:+ strftime now +:+ ".jpg").
    pose proof (store_cases name ok s) as Hc. simpl in Hc.
    rewrite HM in Hc. simpl in Hc.
    destruct (M <? _).
    + destruct Hc as (oldest & rest & Hl & Hc).
      assert (Hin : oldest ∈ uploaded_images s ∪ {[name]}).
      { assert (Ho : oldest ∈ image_files s ++ [name])
          by (rewrite Hl; apply list_elem_of_here).
        apply elem_of_app in Ho as [Ho|Ho].
        - apply elem_of_union_l. by apply Hdisk.
        - apply list_elem_of_singleton in Ho as ->.
          apply elem_of_union_r. by apply elem_of_singleton. }
      rewrite bool_decide_eq_true_2 in Hc by done. by rewrite Hc.
    + by rewrite Hc.
Qed.

(** ** Identifiers and the consistency of the collection *)

Lemma upload_keeps_consistent (file : UploadFile) (now : datetime) (ok : bool)
    (s : State) :
  let name := "image_" +:+ strftime now +:+ ".jpg" in
  NoDup (image_files s ++ [name]) -> listed_on_disk s ->
  NoDup (image_files (upload_image file now ok s).2) /\
  listed_on_disk (upload_image file now ok s).2 /\
  image_files (upload_image file now ok s).2 ⊆ image_files s ++ [name].
Proof.
  intros name Hnd Hdisk.
  destruct (upload_image_cases file now ok s) as [(-> & _)|(_ & ->)].
  { split; [by apply NoDup_app in Hnd as (? & _)|]. split; [done|].
    by apply list_subseteq_app_l. }
  fold name.
  destruct (create_thumbnail_frame name ok
              (set_image_files (image_files s ++ [name])
                 (set_uploaded_images (uploaded_images s ∪ {[name]}) s)))
    as (_ & _ & _ & _ & _ & _ & Hu & _). simpl in Hu.
  assert (H1 : forall p, p ∈ image_files s ++ [name] ->
                         p ∈ uploaded_images s ∪ {[name]}).
  { intros p Hp. apply elem_of_app in Hp as [Hp|Hp].
    - apply elem_of_union_l. by apply Hdisk.
    - apply list_elem_of_singleton in Hp as ->.
      apply elem_of_union_r. by apply elem_of_singleton. }
  unfold listed_on_disk.
  destruct (store_outcome name ok s)
    as [(-> & -> & _)|(oldest & rest & Hl & -> & Hd)].
  - rewrite Hu. done.
  - rewrite Hl in Hnd, H1 |- *. apply NoDup_cons in Hnd as [Hnotin Hnd].
    split; [done|]. split; [|by apply list_subseteq_cons].
    intros p Hp.
    destruct Hd as [(-> & _)|(_ & -> & _)]; rewrite Hu.
    + apply elem_of_difference. split.
      * apply H1. by apply list_elem_of_further.
      * intros Heq. apply elem_of_singleton in Heq as ->. done.
    + apply H1. by apply list_elem_of_further.
Qed.

(** X14: with identifiers that are new, the collection stays consistent.
    If the identifiers of a sequence of uploads differ from each other and
    from the images already listed, then after the sequence, whatever each
    upload answered, no image is listed twice and every listed image has its
    file on disk. *)
Theorem uploads_keep_collection_consistent (s : State) (rs : list request) :
  NoDup (image_files s ++ (identifier <$> rs)) -> listed_on_disk s ->
  NoDup (image_files (inserts s rs)) /\ listed_on_disk (inserts s rs).
Proof.
  revert s. induction rs as [|r rs IH]; intros s Hnd Hdisk.
  - simpl in *. by rewrite app_nil_r in Hnd.
  - simpl. apply IH.
    + rewrite fmap_cons, cons_middle, (assoc_L (++)) in Hnd.
      apply NoDup_app in Hnd as (Hnd1 & Hdisj & Hnd2).
      destruct (upload_keeps_consistent r.1.1 r.1.2 r.2 s Hnd1 Hdisk)
        as (Hnd' & _ & Hsub).
      apply NoDup_app. split; [done|]. split; [|done].
      intros x Hx. apply Hdisj. by apply Hsub.
    + rewrite fmap_cons, cons_middle, (assoc_L (++)) in Hnd.
      apply NoDup_app in Hnd as (Hnd1 & _).
      by destruct (upload_keeps_consistent r.1.1 r.1.2 r.2 s Hnd1 Hdisk)
        as (_ & ? & _).
Qed.

Lemma append_length (a b : string) :
  String.length (a +:+ b) = (String.length a + String.length b)%nat.
Proof. induction a as [|c a IH]; simpl; [done|]. by rewrite IH. Qed.

Lemma zfill_length (w : nat) (n : Z) : String.length (Py.zfill w n) = w.
Proof.
  revert n. induction w as [|w IH]; intros n; simpl; [done|].
  rewrite append_length, IH. simpl. lia.
Qed.

Lemma append_inj_length (a1 a2 b1 b2 : string) :
  String.length a1 = String.length a2 ->
  a1 +:+ b1 = a2 +:+ b2 -> a1 = a2 /\ b1 = b2.
Proof.
  revert a2. induction a1 as [|c a1 IH]; intros [|c2 a2] Hlen H;
    simpl in *; try done.
  injection H as -> H. destruct (IH a2) as [-> ->]; [lia|done|done].
Qed.

Lemma digit_char_inj (a b : Z) :
  0 <= a < 10 -> 0 <= b < 10 -> Py.digit_char a = Py.digit_char b -> a = b.
Proof.
  intros Ha Hb H. unfold Py.digit_char in H.
  apply (f_equal nat_of_ascii) in H.
  rewrite !nat_ascii_embedding in H by lia. lia.
Qed.

Lemma zfill_inj (w : nat) (n m : Z) :
  0 <= n < 10 ^ Z.of_nat w -> 0 <= m < 10 ^ Z.of_nat w ->
  Py.zfill w n = Py.zfill w m -> n = m.
Proof.
  revert n m. induction w as [|w IH]; intros n m Hn Hm H.
  - simpl in Hn, Hm. lia.
  - simpl in H.
    rewrite Nat2Z.inj_succ, Z.pow_succ_r in Hn, Hm by lia.
    apply append_inj_length in H as [H1 H2]; [|by rewrite !zfill_length].
    injection H2 as H2.
    apply digit_char_inj in H2; [|by apply Z.mod_pos_bound..].
    apply IH in H1; [|split; [apply Z.div_pos; lia|apply Z.div_lt_upper_bound; lia]..].
    rewrite (Z.div_mod n 10), (Z.div_mod m 10) by lia. congruence.
Qed.

(** X15: the identifier is the clock time to the second, and nothing else.
    For times whose fields have the width [strftime] prints them with, two
    uploads get the same identifier exactly when year, month, day, hour,
    minute and second agree; the microseconds play no part. *)
Theorem identifier_to_the_second (d1 d2 : datetime) :
  printable d1 -> printable d2 ->
  ("image_" +:+ strftime d1 +:+ ".jpg" = "image_" +:+ strftime d2 +:+ ".jpg"
   <-> to_the_second d1 = to_the_second d2).
Proof.
  intros (Hy1 & Hm1 & Hd1 & Hh1 & Hmi1 & Hs1) (Hy2 & Hm2 & Hd2 & Hh2 & Hmi2 & Hs2).
  unfold to_the_second. split.
  - intros H. apply (append_inj_length "image_" "image_") in H as [_ H]; [|done].
    unfold strftime in H.
    apply append_inj_length in H as [H _]; [|by rewrite !append_length, !zfill_length].
    apply append_inj_length in H as [HY H]; [|by rewrite !zfill_length].
    apply append_inj_length in H as [HM H]; [|by rewrite !zfill_length].
    apply append_inj_length in H as [HD H]; [|by rewrite !zfill_length].
    apply (append_inj_length "_" "_") in H as [_ H]; [|done].
    apply append_inj_length in H as [Hh H]; [|by rewrite !zfill_length].
    apply append_inj_length in H as [Hmi Hs]; [|by rewrite !zfill_length].
    apply (zfill_inj 4) in HY; [|done..].
    apply (zfill_inj 2) in HM; [|done..].
    apply (zfill_inj 2) in HD; [|done..].
    apply (zfill_inj 2) in Hh; [|done..].
    apply (zfill_inj 2) in Hmi; [|done..].
    apply (zfill_inj 2) in Hs; [|done..].
    congruence.
  - intros H. injection H as HY HM HD Hh Hmi Hs. unfold strftime.
    by rewrite HY, HM, HD, Hh, Hmi, Hs.
Qed.

Lemma digit_not_dot (n : Z) : Ascii.eqb (Py.digit_char (n mod 10)) "." = false.
Proof.
  pose proof (Z.mod_pos_bound n 10 ltac:(lia)) as H.
  assert (Hc : n mod 10 = 0 \/ n mod 10 = 1 \/ n mod 10 = 2 \/ n mod 10 = 3 \/
               n mod 10 = 4 \/ n mod 10 = 5 \/ n mod 10 = 6 \/ n mod 10 = 7 \/
               n mod 10 = 8 \/ n mod 10 = 9) by lia.
  repeat (destruct Hc as [->|Hc]; [reflexivity|]). by rewrite Hc.
Qed.

(** X16: what [upload_image] stores, [load_existing_images] finds again.
    The name of every stored upload has the suffix [.jpg], so that the file
    counts as a JPEG entry of the directory at the next start, whatever the
    clock said. *)
Theorem stored_upload_is_loaded_again (now : datetime) (mtime : Z) :
  Path_suffix ("image_" +:+ strftime now +:+ ".jpg") = ".jpg" /\
  is_jpeg ("image_" +:+ strftime now +:+ ".jpg", mtime) = true.
Proof.
  assert (H : Path_suffix ("image_" +:+ strftime now +:+ ".jpg") = ".jpg").
  { pose proof digit_not_dot as Hd. unfold Path_suffix, strftime, Py.zfill.
    set (dc := Py.digit_char) in *. clearbody dc.
    cbv [String.append]. cbn [rfind_dot]. rewrite !Hd. reflexivity. }
  split; [exact H|]. unfold is_jpeg. simpl fst. rewrite H. reflexivity.
Qed.

(** ** Thumbnails on request *)

(** X17: [get_thumbnail] answers with the thumbnail exactly when it exists
    once the request is over, which is when it existed before or the image
    has its file and a thumbnail could be produced from it; otherwise the
    answer is the 404 and nothing has changed. No other thumbnail and
    nothing but the thumbnails is touched, and once the file was sent every
    later request is answered from the stored thumbnail. *)
Theorem get_thumbnail_answers (filename : string) (ok : bool) (s : State) :
  let r := (get_thumbnail filename ok s).1 in
  let s' := (get_thumbnail filename ok s).2 in
  (r = FileResponse (thumb_name filename) <->
   thumb_name filename ∈ thumbnails s') /\
  (r = NotFound 404 "Thumbnail not found" <->
   (thumb_name filename ∉ thumbnails s')) /\
  (thumb_name filename ∈ thumbnails s' <->
   thumb_name filename ∈ thumbnails s \/
   (filename ∈ uploaded_images s /\ ok = true)) /\
  (forall p, p <> thumb_name filename ->
             (p ∈ thumbnails s' <-> p ∈ thumbnails s)) /\
  (r = NotFound 404 "Thumbnail not found" -> s' = s) /\
  (CONFIG s' = CONFIG s /\ image_files s' = image_files s /\
   current_image_index s' = current_image_index s /\
   uploaded_images s' = uploaded_images s /\ displayed s' = displayed s /\
   cycling_enabled s' = cycling_enabled s /\ threads s' = threads s) /\
  (forall ok', r = FileResponse (thumb_name filename) ->
               get_thumbnail filename ok' s' = (r, s')).
Proof.
  unfold get_thumbnail, create_thumbnail_path, create_thumbnail.
  destruct (bool_decide (thumb_name filename ∈ thumbnails s)) eqn:Et.
  { apply bool_decide_eq_true in Et. simpl.
    split; [done|]. split; [split; [done|by intros []]|].
    split; [split; [by left|done]|]. split; [done|]. split; [done|].
    split; [done|]. intros ok' _. by rewrite bool_decide_eq_true_2. }
  apply bool_decide_eq_false in Et.
  destruct (bool_decide (filename ∈ uploaded_images s)) eqn:Eu.
  2:{ apply bool_decide_eq_false in Eu. simpl.
      split; [split; [done|by intros ?]|]. split; [done|].
      split; [split; [done|by intros [?|[? _]]]|]. split; [done|].
      split; [done|]. split; [done|]. intros ok' H. discriminate H. }
  apply bool_decide_eq_true in Eu. destruct ok; simpl.
  - assert (Hin : thumb_name filename ∈ thumbnails s ∪ {[thumb_name filename]}).
    { apply elem_of_union_r. by apply elem_of_singleton. }
    split; [done|]. split; [split; [done|by intros []]|].
    split; [split; [by right|done]|].
    split.
    { intros p Hp. rewrite elem_of_union, elem_of_singleton.
      split; [by intros [?|?]|by left]. }
    split; [done|]. split; [done|].
    intros ok' _. by rewrite bool_decide_eq_true_2.
  - split; [split; [done|by intros ?]|]. split; [done|].
    split; [split; [done|by intros [?|[_ ?]]]|]. split; [done|].
    split; [done|]. split; [done|]. intros ok' H. discriminate H.
Qed.


(** ** Start and stop requests *)

(** X19: [control_cycling] succeeds exactly for the actions [start] and
    [stop], spelled so; any other action is answered with status 400 and
    changes nothing. Whatever the action, the collection, the cursor, the
    configuration, the files and the render log stay as they are, and after
    a success [cycling_enabled] tells which of the two it was. *)
Theorem control_cycling_actions (action : string) (s : State) :
  let r := control_cycling action s in
  (succeeded r.1 = true <-> action = "start" \/ action = "stop") /\
  (succeeded r.1 = false ->
   r.1 = HTTPException 400 Raised "Invalid action" /\ r.2 = s) /\
  (succeeded r.1 = true ->
   cycling_enabled r.2 = bool_decide (action = "start")) /\
  image_files r.2 = image_files s /\
  current_image_index r.2 = current_image_index s /\
  CONFIG r.2 = CONFIG s /\ uploaded_images r.2 = uploaded_images s /\
  thumbnails r.2 = thumbnails s /\ displayed r.2 = displayed s.
Proof.
  unfold control_cycling.
  destruct (String.eqb_spec action "start") as [->|Hn1]; simpl.
  { destruct (start_cycling_frame (set_cycling_enabled true s))
      as (-> & -> & -> & -> & -> & -> & ->).
    split; [split; [by left|done]|]. by split. }
  destruct (String.eqb_spec action "stop") as [->|Hn2]; simpl.
  { split; [split; [by right|done]|]. by split. }
  split; [split; [done|by intros [?|?]]|]. by split.
Qed.

(** ** Eviction and the cursor *)

(** X20: an evicting upload passes over the image that was due. When an
    upload removes the oldest image, the cursor keeps its value
    while every image moves one place down, so that the image the cursor
    then stands on is the one that followed the image due before (the new
    image, if the last one was due); it is again a valid position. *)
Theorem eviction_passes_over_due_image (file : UploadFile) (now : datetime)
    (ok : bool) (s : State) :
  accepted file s -> over_limit s ->
  0 <= current_image_index s < Z.of_nat (length (image_files s)) ->
  let s' := (upload_image file now ok s).2 in
  let name := "image_" +:+ strftime now +:+ ".jpg" in
  Py.getitem (image_files s') (current_image_index s')
  = (image_files s ++ [name]) !! S (Z.to_nat (current_image_index s)) /\
  is_Some (Py.getitem (image_files s') (current_image_index s')).
Proof.
  intros Hacc Hover Hi s' name. subst s'.
  destruct (upload_image_files file now ok s) as (_ & Hcur & _).
  rewrite Hcur.
  destruct (upload_image_cases file now ok s) as [(_ & _ & Hn)|(_ & ->)];
    [done|]. fold name.
  destruct (store_outcome name ok s)
    as [(_ & _ & _ & Hno)|(oldest & rest & Hl & -> & _)]; [done|].
  rewrite Hl. split; [by rewrite getitem_nonneg by lia|].
  apply getitem_in_range.
  apply (f_equal length) in Hl. rewrite length_app in Hl. simpl in Hl. lia.
Qed.

(** ** The HEIC flag *)

(** X23: what [check_heic_support] reports is what decides the refusal.
    When it reports support, no upload is refused as an unsupported format,
    whatever its name; when it reports none, every upload with a HEIC name is
    refused so, before its contents are looked at, and nothing changes. *)
Theorem heic_support_decides_refusal :
  (check_heic_support = true ->
   forall file now ok s detail,
     (upload_image file now ok s).1 <> HTTPException 400 UnsupportedFormat detail) /\
  (check_heic_support = false ->
   forall file now ok s,
     is_heic file = true ->
     upload_image file now ok s
     = (HTTPException 400 UnsupportedFormat heic_unsupported, s)).
Proof.
  unfold check_heic_support. split.
  - intros Hs file now ok s detail Hr.
    destruct (upload_response_cases file now ok s)
      as [(_ & Hn & _)|(_ & [(e & _ & He)|(image & _ & [(d & Hd)|(m & n & Hm)])])];
      congruence.
  - intros Hs file now ok s Hh. unfold upload_image. by rewrite Hh, Hs.
Qed.

End Server.

(** ** Resize and crop *)

Lemma pow2_pos (k : Z) : (0 < Float.pow2 k)%Q.
Proof. unfold Float.pow2. apply Qpower_0_lt. reflexivity. Qed.

Lemma pow2_add (a b : Z) : (Float.pow2 (a + b) == Float.pow2 a * Float.pow2 b)%Q.
Proof. unfold Float.pow2. apply Qpower_plus. discriminate. Qed.

Lemma pow2_succ (a : Z) : (Float.pow2 (a + 1) == 2 * Float.pow2 a)%Q.
Proof. rewrite pow2_add. unfold Float.pow2 at 2. simpl. ring. Qed.

Lemma pow2_le (a b : Z) : a <= b -> (Float.pow2 a <= Float.pow2 b)%Q.
Proof. intros H. unfold Float.pow2. apply Qpower_le_compat_l; [done|]. discriminate. Qed.

Lemma pow2_lt_inv (a b : Z) : (Float.pow2 a < Float.pow2 b)%Q -> a < b.
Proof. unfold Float.pow2. intros H. eapply Qpower_lt_compat_l_inv; [exact H|reflexivity]. Qed.

Lemma pow2_Z (a : Z) : 0 <= a -> (Float.pow2 a == inject_Z (2 ^ a))%Q.
Proof. intros H. unfold Float.pow2. rewrite Zpower_Qpower by done. reflexivity. Qed.

Lemma ilog2_spec (x : Q) :
  (0 < x)%Q -> (Float.pow2 (Float.ilog2 x) <= x < Float.pow2 (Float.ilog2 x + 1))%Q.
Proof.
  intros Hx. destruct x as [p q].
  assert (Hp : 0 < p). { unfold Qlt in Hx. simpl in Hx. lia. }
  pose proof (Z.log2_spec p Hp) as [Ha1 Ha2].
  pose proof (Z.log2_spec (Z.pos q) ltac:(lia)) as [Hb1 Hb2].
  pose proof (Z.log2_nonneg p) as Ha0.
  pose proof (Z.log2_nonneg (Z.pos q)) as Hb0.
  unfold Float.ilog2. simpl Qnum. simpl Qden.
  set (a := Z.log2 p) in *. set (b := Z.log2 (Z.pos q)) in *.
  assert (HA : (Float.pow2 (a - b) * Float.pow2 b == Float.pow2 a)%Q).
  { rewrite <- pow2_add. replace (a - b + b) with a by lia. reflexivity. }
  assert (Hx' : ((p # q) * inject_Z (Z.pos q) == inject_Z p)%Q).
  { rewrite (Qmake_Qdiv p q). field. discriminate. }
  pose proof (pow2_pos (a - b)) as HK. pose proof (pow2_pos b) as HB.
  assert (HP1 : (Float.pow2 a <= inject_Z p)%Q).
  { rewrite pow2_Z by done. rewrite <- Zle_Qle. done. }
  assert (HP2 : (inject_Z p < 2 * Float.pow2 a)%Q).
  { rewrite <- pow2_succ, pow2_Z by lia. rewrite <- Zlt_Qlt. done. }
  assert (HD1 : (Float.pow2 b <= inject_Z (Z.pos q))%Q).
  { rewrite pow2_Z by done. rewrite <- Zle_Qle. done. }
  assert (HD2 : (inject_Z (Z.pos q) < 2 * Float.pow2 b)%Q).
  { rewrite <- pow2_succ, pow2_Z by lia. rewrite <- Zlt_Qlt. done. }
  destruct (Qle_bool (Float.pow2 (a - b)) (p # q)) eqn:E.
  - apply Qle_bool_iff in E. split; [done|].
    rewrite pow2_succ.
    set (x := (p # q)%Q) in *. set (K := Float.pow2 (a - b)) in *.
    set (B := Float.pow2 b) in *. set (A := Float.pow2 a) in *.
    set (D := inject_Z (Z.pos q)) in *. set (P := inject_Z p) in *.
    clearbody x K B A D P. nra.
  - assert (E' : (p # q < Float.pow2 (a - b))%Q).
    { apply Qnot_le_lt. intros H. apply Qle_bool_iff in H. congruence. }
    replace (a - b - 1 + 1) with (a - b) by lia. split; [|done].
    assert (HK' : (2 * Float.pow2 (a - b - 1) == Float.pow2 (a - b))%Q).
    { rewrite <- pow2_succ. replace (a - b - 1 + 1) with (a - b) by lia. reflexivity. }
    set (x := (p # q)%Q) in *. set (K := Float.pow2 (a - b)) in *.
    set (K1 := Float.pow2 (a - b - 1)) in *.
    set (B := Float.pow2 b) in *. set (A := Float.pow2 a) in *.
    set (D := inject_Z (Z.pos q)) in *. set (P := inject_Z p) in *.
    clearbody x K K1 B A D P. nra.
Qed.

Lemma ilog2_unique (x : Q) (k : Z) :
  (Float.pow2 k <= x < Float.pow2 (k + 1))%Q -> Float.ilog2 x = k.
Proof.
  intros [H1 H2].
  assert (Hx : (0 < x)%Q) by (pose proof (pow2_pos k); lra).
  destruct (ilog2_spec x Hx) as [H3 H4].
  assert (Float.ilog2 x < k + 1) by (apply pow2_lt_inv; lra).
  assert (k < Float.ilog2 x + 1) by (apply pow2_lt_inv; lra).
  lia.
Qed.

Lemma ilog2_le (x y : Q) :
  (0 < x)%Q -> (x <= y)%Q -> Float.ilog2 x <= Float.ilog2 y.
Proof.
  intros Hx Hxy.
  destruct (ilog2_spec x Hx) as [H1 _].
  destruct (ilog2_spec y ltac:(lra)) as [_ H2].
  assert (Float.ilog2 x < Float.ilog2 y + 1) by (apply pow2_lt_inv; lra).
  lia.
Qed.

(** Rounding to the nearest integer. *)
Lemma rne_cases (m : Q) :
  Float.rne m = Qfloor m \/ Float.rne m = Qfloor m + 1.
Proof. unfold Float.rne. repeat case_match; auto. Qed.

Lemma rne_Z (n : Z) : Float.rne (inject_Z n) = n.
Proof.
  unfold Float.rne. rewrite Qfloor_Z.
  assert (E : (inject_Z n - inject_Z n ?= 1 # 2)%Q = Lt).
  { apply (proj1 (Qlt_alt _ _)). lra. }
  by rewrite E.
Qed.

Lemma rne_mono (m1 m2 : Q) : (m1 <= m2)%Q -> Float.rne m1 <= Float.rne m2.
Proof.
  intros H. pose proof (Qfloor_resp_le m1 m2 H) as Hf.
  destruct (decide (Qfloor m1 = Qfloor m2)) as [E|Hne].
  - unfold Float.rne. rewrite <- E.
    destruct (m1 - inject_Z (Qfloor m1) ?= 1 # 2)%Q eqn:E1;
      destruct (m2 - inject_Z (Qfloor m1) ?= 1 # 2)%Q eqn:E2;
      try lia; try (case_match; lia).
    all: exfalso;
      repeat match goal with
      | H : (_ ?= _)%Q = Eq |- _ => apply (proj2 (Qeq_alt _ _)) in H
      | H : (_ ?= _)%Q = Lt |- _ => apply (proj2 (Qlt_alt _ _)) in H
      | H : (_ ?= _)%Q = Gt |- _ => apply (proj2 (Qgt_alt _ _)) in H
      end; lra.
  - destruct (rne_cases m1) as [->| ->], (rne_cases m2) as [->| ->]; lia.
Qed.

Lemma rne_ge (n : Z) (m : Q) : (inject_Z n <= m)%Q -> n <= Float.rne m.
Proof. intros H. rewrite <- (rne_Z n). by apply rne_mono. Qed.

Lemma rne_le (n : Z) (m : Q) : (m <= inject_Z n)%Q -> Float.rne m <= n.
Proof. intros H. rewrite <- (rne_Z n). by apply rne_mono. Qed.

Lemma rne_proper (x y : Q) : (x == y)%Q -> Float.rne x = Float.rne y.
Proof.
  intros E. apply Z.le_antisymm; apply rne_mono; rewrite E; apply Qle_refl.
Qed.

Lemma pow2_52 : (Float.pow2 52 == inject_Z (2 ^ 52))%Q.
Proof. by apply pow2_Z. Qed.

Lemma scaled_spec (x : Q) :
  (0 < x)%Q ->
  let e := Float.ilog2 x - 52 in
  (x / Float.pow2 e * Float.pow2 e == x)%Q /\
  (inject_Z (2 ^ 52) <= x / Float.pow2 e < inject_Z (2 ^ 53))%Q.
Proof.
  intros Hx e. pose proof (pow2_pos e) as He.
  assert (Hm : (x / Float.pow2 e * Float.pow2 e == x)%Q) by (field; lra).
  split; [done|].
  destruct (ilog2_spec x Hx) as [H1 H2].
  assert (E1 : (Float.pow2 (Float.ilog2 x) == inject_Z (2 ^ 52) * Float.pow2 e)%Q).
  { rewrite <- pow2_52, <- pow2_add. subst e.
    replace (52 + (Float.ilog2 x - 52)) with (Float.ilog2 x) by lia. reflexivity. }
  assert (E2 : (Float.pow2 (Float.ilog2 x + 1) == inject_Z (2 ^ 53) * Float.pow2 e)%Q).
  { rewrite pow2_succ, E1. change (2 ^ 53) with (2 * 2 ^ 52).
    rewrite inject_Z_mult. change (inject_Z 2) with 2%Q. ring. }
  rewrite E1 in H1. rewrite E2 in H2.
  set (m := (x / Float.pow2 e)%Q) in *. set (P := Float.pow2 e) in *.
  set (c52 := inject_Z (2 ^ 52)) in *. set (c53 := inject_Z (2 ^ 53)) in *.
  clearbody m P c52 c53. clear E1 E2. split; nra.
Qed.

Lemma round_pos_bounds (x : Q) :
  (0 < x)%Q ->
  2 ^ 52 <= Float.rne (x / Float.pow2 (Float.ilog2 x - 52)) <= 2 ^ 53.
Proof.
  intros Hx. destruct (scaled_spec x Hx) as [_ [H1 H2]].
  split; [by apply rne_ge|]. apply rne_le. lra.
Qed.

Lemma round_pos_pos (x : Q) : (0 < x)%Q -> (0 < Float.round_pos x)%Q.
Proof.
  intros Hx. unfold Float.round_pos.
  pose proof (round_pos_bounds x Hx) as [H _].
  pose proof (pow2_pos (Float.ilog2 x - 52)).
  apply Qmult_lt_0_compat; [|done].
  change 0%Q with (inject_Z 0). rewrite <- Zlt_Qlt. lia.
Qed.

Lemma round_pos_mono (x y : Q) :
  (0 < x)%Q -> (x <= y)%Q -> (Float.round_pos x <= Float.round_pos y)%Q.
Proof.
  intros Hx Hxy. assert (Hy : (0 < y)%Q) by lra.
  pose proof (ilog2_le x y Hx Hxy) as Hl.
  unfold Float.round_pos.
  destruct (decide (Float.ilog2 x = Float.ilog2 y)) as [E|Hne].
  - rewrite E. pose proof (pow2_pos (Float.ilog2 y - 52)) as He.
    apply Qmult_le_compat_r; [|lra].
    rewrite <- Zle_Qle. apply rne_mono.
    apply Qmult_le_compat_r; [done|]. apply Qlt_le_weak, Qinv_lt_0_compat, He.
  - pose proof (round_pos_bounds x Hx) as [_ Hu].
    pose proof (round_pos_bounds y Hy) as [Hv _].
    rewrite Zle_Qle in Hu, Hv.
    pose proof (pow2_pos (Float.ilog2 x - 52)) as Hex.
    pose proof (pow2_pos (Float.ilog2 y - 52)) as Hey.
    assert (Hstep : (inject_Z (2 ^ 53) * Float.pow2 (Float.ilog2 x - 52)
                     <= inject_Z (2 ^ 52) * Float.pow2 (Float.ilog2 y - 52))%Q).
    { change (2 ^ 53) with (2 * 2 ^ 52). rewrite inject_Z_mult.
      change (inject_Z 2) with 2%Q.
      assert (Hp : (2 * Float.pow2 (Float.ilog2 x - 52)
                    <= Float.pow2 (Float.ilog2 y - 52))%Q).
      { rewrite <- pow2_succ. apply pow2_le. lia. }
      assert (H52 : (0 < inject_Z (2 ^ 52))%Q) by reflexivity.
      set (c := inject_Z (2 ^ 52)) in *.
      set (Px := Float.pow2 (Float.ilog2 x - 52)) in *.
      set (Py := Float.pow2 (Float.ilog2 y - 52)) in *.
      clearbody c Px Py. nra. }
    set (rx := inject_Z (Float.rne _)) in *.
    set (ry := inject_Z (Float.rne (y / _))) in *.
    set (Px := Float.pow2 (Float.ilog2 x - 52)) in *.
    set (Py := Float.pow2 (Float.ilog2 y - 52)) in *.
    set (c52 := inject_Z (2 ^ 52)) in *. set (c53 := inject_Z (2 ^ 53)) in *.
    clearbody rx ry Px Py c52 c53. nra.
Qed.

Lemma round_pos_proper (x y : Q) :
  (0 < x)%Q -> (x == y)%Q -> (Float.round_pos x == Float.round_pos y)%Q.
Proof.
  intros Hx E. apply Qle_antisym; apply round_pos_mono; lra.
Qed.

(** A number with a 53-bit significand rounds to itself. *)
Lemma round_pos_repr (M e : Z) :
  2 ^ 52 <= M < 2 ^ 53 ->
  (Float.round_pos (inject_Z M * Float.pow2 e) == inject_Z M * Float.pow2 e)%Q.
Proof.
  intros [H1 H2]. rewrite Zle_Qle in H1. rewrite Zlt_Qlt in H2.
  pose proof (pow2_pos e) as He.
  assert (Hlog : Float.ilog2 (inject_Z M * Float.pow2 e) = e + 52).
  { apply ilog2_unique.
    assert (E52 : (Float.pow2 (e + 52) == inject_Z (2 ^ 52) * Float.pow2 e)%Q).
    { rewrite pow2_add, (pow2_Z 52) by lia. ring. }
    assert (E53 : (Float.pow2 (e + 52 + 1) == inject_Z (2 ^ 53) * Float.pow2 e)%Q).
    { replace (e + 52 + 1) with (e + 53) by lia.
      rewrite pow2_add, (pow2_Z 53) by lia. ring. }
    rewrite E52, E53. clear E52 E53.
    set (P := Float.pow2 e) in *. set (m := inject_Z M) in *.
    set (c52 := inject_Z (2 ^ 52)) in *. set (c53 := inject_Z (2 ^ 53)) in *.
    clearbody P m c52 c53. split; nra. }
  unfold Float.round_pos. rewrite Hlog.
  replace (e + 52 - 52) with e by lia.
  assert (Hr : Float.rne (inject_Z M * Float.pow2 e / Float.pow2 e) = M).
  { rewrite <- (rne_Z M) at 2. apply rne_proper. field. lra. }
  rewrite Hr. reflexivity.
Qed.

Lemma round_pos_idem (x : Q) :
  (0 < x)%Q -> (Float.round_pos (Float.round_pos x) == Float.round_pos x)%Q.
Proof.
  intros Hx. pose proof (round_pos_bounds x Hx) as [H1 H2].
  unfold Float.round_pos at 2 3.
  set (R := Float.rne _) in *. set (e := Float.ilog2 x - 52).
  destruct (decide (R = 2 ^ 53)) as [E|Hne].
  - assert (Heq : (inject_Z R * Float.pow2 e
                   == inject_Z (2 ^ 52) * Float.pow2 (e + 1))%Q).
    { rewrite E, pow2_succ. change (2 ^ 53) with (2 * 2 ^ 52).
      rewrite inject_Z_mult. change (inject_Z 2) with 2%Q. ring. }
    assert (Hpos : (0 < inject_Z R * Float.pow2 e)%Q).
    { rewrite Heq. apply Qmult_lt_0_compat; [reflexivity|apply pow2_pos]. }
    rewrite (round_pos_proper _ _ Hpos Heq).
    rewrite round_pos_repr by (split; [apply Z.le_refl|reflexivity]).
    by rewrite Heq.
  - apply round_pos_repr. lia.
Qed.

Lemma round_pos_Z (n : Z) :
  0 < n < 2 ^ 53 -> (Float.round_pos (inject_Z n) == inject_Z n)%Q.
Proof.
  intros [H1 H2].
  pose proof (Z.log2_spec n H1) as [Ha Hb].
  pose proof (Z.log2_nonneg n) as H0.
  assert (Hj : Z.log2 n < 53) by (by apply Z.log2_lt_pow2).
  set (j := Z.log2 n) in *.
  assert (Heq : (inject_Z n == inject_Z (n * 2 ^ (52 - j)) * Float.pow2 (j - 52))%Q).
  { rewrite inject_Z_mult, <- (pow2_Z (52 - j)) by lia.
    rewrite <- Qmult_assoc, <- pow2_add.
    replace (52 - j + (j - 52)) with 0 by lia.
    unfold Float.pow2 at 1. simpl. ring. }
  assert (Hn : (0 < inject_Z n)%Q).
  { change 0%Q with (inject_Z 0). rewrite <- Zlt_Qlt. done. }
  rewrite (round_pos_proper _ _ Hn Heq).
  rewrite round_pos_repr; [by rewrite <- Heq|].
  split.
  - replace (2 ^ 52) with (2 ^ j * 2 ^ (52 - j)).
    + apply Z.mul_le_mono_nonneg_r; [|done]. apply Z.pow_nonneg. lia.
    + rewrite <- Z.pow_add_r by lia. f_equal. lia.
  - replace (2 ^ 53) with (2 ^ Z.succ j * 2 ^ (52 - j)).
    + apply Z.mul_lt_mono_pos_r; [|done]. apply Z.pow_pos_nonneg; lia.
    + rewrite <- Z.pow_add_r by lia. f_equal. lia.
Qed.

(** The same facts for [round] on positive numbers. *)
Lemma round_positive (x : Q) : (0 < x)%Q -> Float.round x = Float.round_pos x.
Proof.
  intros Hx. unfold Float.round. destruct x as [[|p|p] q]; try done.
Qed.

Lemma to_int_ge (n : Z) (x : Q) :
  0 <= n -> (inject_Z n <= x)%Q -> n <= Float.to_int x.
Proof.
  intros Hn H. unfold Float.to_int.
  assert (Hx : 0 <= Qnum x).
  { assert (H0 : (0 <= x)%Q).
    { eapply Qle_trans; [|exact H]. change 0%Q with (inject_Z 0).
      by rewrite <- Zle_Qle. }
    unfold Qle in H0. simpl in H0. lia. }
  rewrite Z.quot_div_nonneg by lia.
  apply Qfloor_resp_le in H. rewrite Qfloor_Z in H.
  destruct x as [p q]. exact H.
Qed.

Lemma inject_Z_pos (n : Z) : 0 < n -> (0 < inject_Z n)%Q.
Proof. intros H. change 0%Q with (inject_Z 0). by rewrite <- Zlt_Qlt. Qed.

Lemma of_int_exact (n : Z) :
  0 < n < 2 ^ 31 -> (Float.of_int n == inject_Z n)%Q.
Proof.
  intros [H1 H2]. unfold Float.of_int.
  rewrite round_positive by (by apply inject_Z_pos).
  apply round_pos_Z. split; [done|].
  eapply Z.lt_trans; [exact H2|reflexivity].
Qed.

(** The ratio of two positive integers as [truediv] computes it: positive,
    a fixed point of the rounding, and ordered as the exact ratios are. *)
Lemma truediv_spec (a b : Z) :
  0 < a -> 0 < b ->
  exists r, Float.truediv a b = Some r /\
    r = Float.round_pos (inject_Z a / inject_Z b) /\
    (0 < r)%Q /\ (Float.round_pos r == r)%Q.
Proof.
  intros Ha Hb. unfold Float.truediv.
  destruct (Z.eqb_spec b 0) as [->|_]; [lia|].
  assert (Hx : (0 < inject_Z a / inject_Z b)%Q).
  { apply Qlt_shift_div_l; [by apply inject_Z_pos|].
    rewrite Qmult_0_l. by apply inject_Z_pos. }
  eexists. split; [reflexivity|]. rewrite round_positive by done.
  split; [reflexivity|]. split; [by apply round_pos_pos|by apply round_pos_idem].
Qed.

(** Rounding moves a positive number by at most the fraction [2^-53] of
    it, so two numbers further apart than that keep their order strictly. *)
Lemma rne_error (m : Q) :
  (m - (1 # 2) <= inject_Z (Float.rne m) <= m + (1 # 2))%Q.
Proof.
  pose proof (Qfloor_le m) as H1. pose proof (Qlt_floor m) as H2.
  rewrite inject_Z_plus in H2. change (inject_Z 1) with 1%Q in H2.
  unfold Float.rne.
  destruct (m - inject_Z (Qfloor m) ?= 1 # 2)%Q eqn:E.
  - apply (proj2 (Qeq_alt _ _)) in E.
    destruct (Z.even (Qfloor m)); rewrite ?inject_Z_plus;
      change (inject_Z 1) with 1%Q; lra.
  - apply (proj2 (Qlt_alt _ _)) in E. lra.
  - apply (proj2 (Qgt_alt _ _)) in E. rewrite inject_Z_plus.
    change (inject_Z 1) with 1%Q. lra.
Qed.

Lemma round_pos_error (x : Q) :
  (0 < x)%Q ->
  (x * (1 - Float.unit_roundoff) <= Float.round_pos x <= x * (1 + Float.unit_roundoff))%Q.
Proof.
  intros Hx. destruct (scaled_spec x Hx) as [Hm [Hlo _]].
  unfold Float.round_pos.
  set (e := Float.ilog2 x - 52) in *. pose proof (pow2_pos e) as HP.
  pose proof (rne_error (x / Float.pow2 e)) as [Hr1 Hr2].
  assert (Hu : (inject_Z (2 ^ 52) * Float.unit_roundoff == 1 # 2)%Q) by reflexivity.
  assert (Hu0 : (0 < Float.unit_roundoff)%Q) by reflexivity.
  set (m := (x / Float.pow2 e)%Q) in *. set (P := Float.pow2 e) in *.
  set (R := inject_Z (Float.rne m)) in *.
  set (c := inject_Z (2 ^ 52)) in *. set (u := Float.unit_roundoff) in *.
  clearbody m P R c u.
  assert (Hk : (0 <= (m - c) * (P * u))%Q).
  { apply Qmult_le_0_compat; [lra|]. apply Qlt_le_weak.
    by apply Qmult_lt_0_compat. }
  assert (Hk2 : (c * (P * u) == P * (1 # 2))%Q).
  { rewrite <- Hu. ring. }
  split; nra.
Qed.

Lemma round_pos_separates (x y : Q) :
  (0 < x)%Q ->
  (x * (1 + Float.unit_roundoff) < y * (1 - Float.unit_roundoff))%Q ->
  (Float.round_pos x < Float.round_pos y)%Q.
Proof.
  intros Hx Hxy.
  assert (Hu0 : (0 < Float.unit_roundoff)%Q) by reflexivity.
  assert (Hu1 : (Float.unit_roundoff < 1)%Q) by reflexivity.
  assert (Hy : (0 < y)%Q).
  { set (u := Float.unit_roundoff) in *. clearbody u. nra. }
  pose proof (round_pos_error x Hx) as [_ H1].
  pose proof (round_pos_error y Hy) as [H2 _].
  lra.
Qed.

(** The ratios of [a/b] and [c/d] as [truediv] rounds them are ordered as
    the exact ratios are, strictly so when the cross products are small
    enough for the two ratios to differ by more than the rounding. *)
Lemma ratio_order (a b c d : Z) :
  0 < a -> 0 < b -> 0 < c -> 0 < d ->
  let ra := Float.round_pos (inject_Z a / inject_Z b) in
  let rc := Float.round_pos (inject_Z c / inject_Z d) in
  ((rc < ra)%Q -> c * b < a * d) /\
  (c * b + a * d < 2 ^ 53 -> c * b < a * d -> (rc < ra)%Q).
Proof.
  intros Ha Hb Hc Hd ra rc. subst ra rc.
  pose proof (inject_Z_pos a Ha) as Haq. pose proof (inject_Z_pos b Hb) as Hbq.
  pose proof (inject_Z_pos c Hc) as Hcq. pose proof (inject_Z_pos d Hd) as Hdq.
  set (x := (inject_Z a / inject_Z b)%Q). set (y := (inject_Z c / inject_Z d)%Q).
  assert (Hx : (x * inject_Z b == inject_Z a)%Q) by (unfold x; field; lra).
  assert (Hy : (y * inject_Z d == inject_Z c)%Q) by (unfold y; field; lra).
  assert (Hx0 : (0 < x)%Q) by nra.
  assert (Hy0 : (0 < y)%Q) by nra.
  assert (Hbd : (0 < inject_Z b * inject_Z d)%Q) by (by apply Qmult_lt_0_compat).
  split.
  - intros Hlt.
    assert (Hexact : (y < x)%Q).
    { apply Qnot_le_lt. intros Hle.
      pose proof (round_pos_mono x y Hx0 Hle). lra. }
    rewrite Zlt_Qlt, !inject_Z_mult. rewrite <- Hx, <- Hy.
    assert (Hprod : (0 < (x - y) * (inject_Z b * inject_Z d))%Q).
    { apply Qmult_lt_0_compat; [lra|done]. }
    lra.
  - intros Hsmall Hlt. apply round_pos_separates; [done|].
    assert (H1 : (inject_Z (c * b) + 1 <= inject_Z (a * d))%Q).
    { change 1%Q with (inject_Z 1). rewrite <- inject_Z_plus, <- Zle_Qle. lia. }
    assert (H2 : (inject_Z (c * b) + inject_Z (a * d) < inject_Z (2 ^ 53))%Q).
    { rewrite <- inject_Z_plus, <- Zlt_Qlt. done. }
    assert (Hu : (inject_Z (2 ^ 53) * Float.unit_roundoff == 1)%Q) by reflexivity.
    assert (Hu0 : (0 < Float.unit_roundoff)%Q) by reflexivity.
    rewrite !inject_Z_mult in H1, H2. rewrite <- Hx, <- Hy in H1, H2.
    apply Qnot_le_lt. intros Hle.
    assert (Hprod : (0 <= (y * (1 + Float.unit_roundoff) - x * (1 - Float.unit_roundoff))
                          * (inject_Z b * inject_Z d))%Q).
    { apply Qmult_le_0_compat; lra. }
    set (u := Float.unit_roundoff) in *. set (B := inject_Z b) in *.
    set (D := inject_Z d) in *. set (c53 := inject_Z (2 ^ 53)) in *.
    clearbody u B D c53 x y.
    assert (Hs : (u * (y * D * B + x * B * D) < 1)%Q) by nra.
    lra.
Qed.

(** C5: for a source image and a target whose sides are positive (and
    below 2^31, as Pillow stores them), [resize_and_crop_image] returns an
    image of exactly the target size: the source resized to height [H] (and a
    width of at least [W]) when its ratio, as computed, exceeds the target's,
    which happens only if the exact ratio does and always if it does and the
    cross products stay below 2^53; resized to width [W] otherwise; and then
    cropped by the box of size [(W, H)] centred in the resized image. *)
Theorem resize_and_crop_image_size (image : Image) (W H : Z) :
  0 < width image < 2 ^ 31 -> 0 < height image < 2 ^ 31 ->
  0 < W < 2 ^ 31 -> 0 < H < 2 ^ 31 ->
  exists img_ratio target_ratio new_width new_height out,
    Float.truediv (width image) (height image) = Some img_ratio /\
    Float.truediv W H = Some target_ratio /\
    (Float.gt img_ratio target_ratio = true ->
     W * height image < width image * H) /\
    (W * height image + width image * H < 2 ^ 53 ->
     W * height image < width image * H ->
     Float.gt img_ratio target_ratio = true) /\
    (if Float.gt img_ratio target_ratio
     then new_height = H /\ W <= new_width
     else new_width = W /\ 1 <= new_height) /\
    resize_and_crop_image image (W, H) = Some out /\
    out = Cropped (Resized image (new_width, new_height))
            ((new_width - W) / 2, (new_height - H) / 2,
             (new_width - W) / 2 + W, (new_height - H) / 2 + H) /\
    size out = (W, H).
Proof.
  intros Hsw Hsh HW HH.
  destruct (truediv_spec (width image) (height image)) as (r & Er & Hr & Hr0 & Hri);
    [lia|lia|].
  destruct (truediv_spec W H) as (t & Et & Ht & Ht0 & Hti); [lia|lia|].
  pose proof (of_int_exact W HW) as EW. pose proof (of_int_exact H HH) as EH.
  pose proof (inject_Z_pos W ltac:(lia)) as HWq.
  pose proof (inject_Z_pos H ltac:(lia)) as HHq.
  pose proof (inject_Z_pos (width image) ltac:(lia)) as Hswq.
  pose proof (inject_Z_pos (height image) ltac:(lia)) as Hshq.
  set (xs := (inject_Z (width image) / inject_Z (height image))%Q) in *.
  set (xt := (inject_Z W / inject_Z H)%Q) in *.
  assert (Hxs : (xs * inject_Z (height image) == inject_Z (width image))%Q)
    by (unfold xs; field; lra).
  assert (Hxt : (xt * inject_Z H == inject_Z W)%Q) by (unfold xt; field; lra).
  assert (Hxs0 : (0 < xs)%Q) by nra.
  assert (Hxt0 : (0 < xt)%Q) by nra.
  assert (HWexact : (Float.round_pos (inject_Z W) == inject_Z W)%Q).
  { apply round_pos_Z. split; [lia|]. eapply Z.lt_trans; [apply HW|reflexivity]. }
  destruct (ratio_order (width image) (height image) W H) as [Hord1 Hord2];
    [lia|lia|lia|lia|].
  fold xs xt in Hord1, Hord2. rewrite <- Hr, <- Ht in Hord1, Hord2.
  assert (Hgt : Float.gt r t = true <-> (t < r)%Q).
  { unfold Float.gt. destruct (Qle_bool r t) eqn:E; simpl.
    - apply Qle_bool_iff in E. split; [done|]. intros. lra.
    - split; [|done]. intros _. apply Qnot_le_lt. intros Hle.
      apply Qle_bool_iff in Hle. congruence. }
  assert (Hc1 : Float.gt r t = true -> W * height image < width image * H).
  { intros Hg. by apply Hord1, Hgt. }
  assert (Hc2 : W * height image + width image * H < 2 ^ 53 ->
                W * height image < width image * H -> Float.gt r t = true).
  { intros Hs Hl. by apply Hgt, Hord2. }
  unfold resize_and_crop_image. rewrite Er, Et. simpl.
  destruct (Float.gt r t) eqn:Egt; pose proof Egt as Egt';
    unfold Float.gt in Egt';
    destruct (Qle_bool r t) eqn:Ele; try discriminate Egt'; clear Egt'; simpl.
  2:{ (* the image is not wider than the target *)
    apply Qle_bool_iff in Ele.
    assert (HtW : (t <= inject_Z W)%Q).
    { rewrite Ht, <- HWexact. apply round_pos_mono; [done|].
      assert (1 <= inject_Z H)%Q.
      { change 1%Q with (inject_Z 1). rewrite <- Zle_Qle. lia. }
      nra. }
    unfold Float.div.
    assert (Er0 : Qeq_bool r 0 = false).
    { destruct (Qeq_bool r 0) eqn:E0; [|done].
      apply Qeq_bool_eq in E0. lra. }
    rewrite Er0. simpl.
    set (q := (Float.of_int W / r)%Q).
    assert (Hq : (1 <= q)%Q).
    { unfold q. apply Qle_shift_div_l; [exact Hr0|]. lra. }
    assert (Hnh : 1 <= Float.to_int (Float.round q)).
    { apply to_int_ge; [lia|]. rewrite round_positive by lra.
      rewrite <- (round_pos_Z 1) by (split; reflexivity).
      apply round_pos_mono; [reflexivity|exact Hq]. }
    exists r, t, W, (Float.to_int (Float.round q)). eexists.
    rewrite Egt.
    split; [done|]. split; [done|]. split; [exact Hc1|]. split; [exact Hc2|].
    split; [done|].
    unfold resize. simpl.
    destruct (Z.leb_spec 1 W); [|lia].
    destruct (Z.leb_spec 1 (Float.to_int (Float.round q))); [|lia]. simpl.
    destruct (Z.leb_spec ((W - W) / 2) ((W - W) / 2 + W)); [|lia].
    destruct (Z.leb_spec ((Float.to_int (Float.round q) - H) / 2)
                ((Float.to_int (Float.round q) - H) / 2 + H)); [|lia]. simpl.
    split; [reflexivity|]. split; [reflexivity|].
    unfold size. f_equal; lia. }
  - (* the image is wider than the target *)
    assert (Hlt : (t < r)%Q).
    { apply Qnot_le_lt. intros Hle. apply Qle_bool_iff in Hle. congruence. }
    assert (Hexact : (xt < xs)%Q).
    { apply Qnot_le_lt. intros Hle.
      pose proof (round_pos_mono xs xt Hxs0 Hle) as Hm.
      rewrite <- Hr, <- Ht in Hm. lra. }
    assert (Hrt : (xt <= r)%Q).
    { apply Qnot_lt_le. intros Hlt'.
      pose proof (round_pos_mono r xt Hr0 ltac:(lra)) as Hm.
      rewrite <- Ht in Hm. lra. }
    set (p := Float.mul (Float.of_int H) r).
    assert (Hnw : W <= Float.to_int p).
    { apply to_int_ge; [lia|]. unfold p, Float.mul.
      assert (HWp : (inject_Z W <= Float.of_int H * r)%Q) by (rewrite EH; nra).
      rewrite round_positive by lra. rewrite <- HWexact.
      apply round_pos_mono; [done|exact HWp]. }
    exists r, t, (Float.to_int p), H. eexists.
    rewrite Egt.
    split; [done|]. split; [done|]. split; [exact Hc1|]. split; [exact Hc2|].
    split; [done|].
    unfold resize. simpl.
    destruct (Z.leb_spec 1 (Float.to_int p)); [|lia].
    destruct (Z.leb_spec 1 H); [|lia]. simpl.
    destruct (Z.leb_spec ((Float.to_int p - W) / 2) ((Float.to_int p - W) / 2 + W));
      [|lia].
    destruct (Z.leb_spec ((H - H) / 2) ((H - H) / 2 + H)); [|lia]. simpl.
    split; [reflexivity|]. split; [reflexivity|].
    unfold size. f_equal; lia.
Qed.

(** ** The crop box, and images without extent *)

(** X21: the crop box leaves the resized image by at most one row. For
    positive sides below 2^31 the result is the crop of the resized image by
    a box that lies inside it from left to right and at the bottom; at the
    top it starts at row 0 or, where the rounding of the two divisions made
    the resized image one row short of the target, at row -1. *)
Theorem crop_box_within_resized (image : Image) (W H : Z) :
  0 < width image < 2 ^ 31 -> 0 < height image < 2 ^ 31 ->
  0 < W < 2 ^ 31 -> 0 < H < 2 ^ 31 ->
  exists new_width new_height left top,
    resize_and_crop_image image (W, H)
    = Some (Cropped (Resized image (new_width, new_height))
              (left, top, left + W, top + H)) /\
    0 <= left /\ left + W <= new_width /\
    -1 <= top /\ top + H <= new_height /\
    (top = -1 -> new_height = H - 1).
Proof.
  intros Hsw Hsh HW HH.
  destruct (truediv_spec (width image) (height image)) as (r & Er & Hr & Hr0 & Hri);
    [lia|lia|].
  destruct (truediv_spec W H) as (t & Et & Ht & Ht0 & Hti); [lia|lia|].
  pose proof (of_int_exact W HW) as EW. pose proof (of_int_exact H HH) as EH.
  pose proof (inject_Z_pos W ltac:(lia)) as HWq.
  pose proof (inject_Z_pos H ltac:(lia)) as HHq.
  pose proof (inject_Z_pos (width image) ltac:(lia)) as Hswq.
  pose proof (inject_Z_pos (height image) ltac:(lia)) as Hshq.
  set (xs := (inject_Z (width image) / inject_Z (height image))%Q) in *.
  set (xt := (inject_Z W / inject_Z H)%Q) in *.
  assert (Hxs : (xs * inject_Z (height image) == inject_Z (width image))%Q)
    by (unfold xs; field; lra).
  assert (Hxt : (xt * inject_Z H == inject_Z W)%Q) by (unfold xt; field; lra).
  assert (Hxs0 : (0 < xs)%Q) by nra.
  assert (Hxt0 : (0 < xt)%Q) by nra.
  assert (HWexact : (Float.round_pos (inject_Z W) == inject_Z W)%Q).
  { apply round_pos_Z. split; [lia|]. eapply Z.lt_trans; [apply HW|reflexivity]. }
  unfold resize_and_crop_image. rewrite Er, Et. simpl.
  destruct (Float.gt r t) eqn:Egt; pose proof Egt as Egt';
    unfold Float.gt in Egt';
    destruct (Qle_bool r t) eqn:Ele; try discriminate Egt'; clear Egt'; simpl.
  2:{ (* not wider than the target: the width is exact *)
    apply Qle_bool_iff in Ele.
    assert (HtW : (t <= inject_Z W)%Q).
    { rewrite Ht, <- HWexact. apply round_pos_mono; [done|].
      assert (1 <= inject_Z H)%Q.
      { change 1%Q with (inject_Z 1). rewrite <- Zle_Qle. lia. }
      nra. }
    unfold Float.div.
    assert (Er0 : Qeq_bool r 0 = false).
    { destruct (Qeq_bool r 0) eqn:E0; [|done].
      apply Qeq_bool_eq in E0. lra. }
    rewrite Er0. simpl.
    set (q := (Float.of_int W / r)%Q).
    assert (Hq : (1 <= q)%Q).
    { unfold q. apply Qle_shift_div_l; [exact Hr0|]. lra. }
    assert (Hnh1 : 1 <= Float.to_int (Float.round q)).
    { apply to_int_ge; [lia|]. rewrite round_positive by lra.
      rewrite <- (round_pos_Z 1) by (split; reflexivity).
      apply round_pos_mono; [reflexivity|exact Hq]. }
    assert (Hnh : H - 1 <= Float.to_int (Float.round q)).
    { destruct (Z.le_gt_cases H 2) as [|H2]; [lia|].
      apply to_int_ge; [lia|]. rewrite round_positive by lra.
      assert (Hb : 0 < H - 1 < 2 ^ 53).
      { split; [lia|]. apply Z.lt_trans with H; [lia|].
        eapply Z.lt_trans; [apply HH|reflexivity]. }
      rewrite <- (round_pos_Z (H - 1) Hb).
      assert (Hh1 : (0 < inject_Z (H - 1))%Q) by (apply inject_Z_pos; lia).
      apply round_pos_mono; [exact Hh1|].
      unfold q. apply Qle_shift_div_l; [exact Hr0|]. rewrite EW.
      pose proof (round_pos_error xt Hxt0) as [_ Hup]. rewrite <- Ht in Hup.
      assert (Hh : (inject_Z (H - 1) == inject_Z H - 1)%Q).
      { unfold Zminus. rewrite inject_Z_plus. reflexivity. }
      assert (Hu : (inject_Z H * Float.unit_roundoff <= 1)%Q).
      { assert (Hle : (inject_Z H <= inject_Z (2 ^ 53))%Q).
        { rewrite <- Zle_Qle. apply Z.lt_le_incl.
          eapply Z.lt_trans; [apply HH|reflexivity]. }
        assert (Hone : (inject_Z (2 ^ 53) * Float.unit_roundoff == 1)%Q)
          by reflexivity.
        assert (Hu0 : (0 <= Float.unit_roundoff)%Q) by (by apply Qlt_le_weak).
        set (u := Float.unit_roundoff) in *. clearbody u. nra. }
      assert (Hu0 : (0 < Float.unit_roundoff)%Q) by reflexivity.
      rewrite Hh in Hh1 |- *.
      set (h := inject_Z H) in *. set (w := inject_Z W) in *.
      set (u := Float.unit_roundoff) in *. clearbody h w u xt.
      assert (K1 : (0 <= (h - 1) * (t - r))%Q)
        by (apply Qmult_le_0_compat; lra).
      assert (K2 : (0 <= (h - 1) * (xt * (1 + u) - t))%Q)
        by (apply Qmult_le_0_compat; lra).
      assert (K3 : (0 <= xt * (1 + u - h * u))%Q)
        by (apply Qmult_le_0_compat; lra).
      nra. }
    exists W, (Float.to_int (Float.round q)),
           ((W - W) / 2), ((Float.to_int (Float.round q) - H) / 2).
    unfold resize. simpl.
    destruct (Z.leb_spec 1 W); [|lia].
    destruct (Z.leb_spec 1 (Float.to_int (Float.round q))); [|lia]. simpl.
    destruct (Z.leb_spec ((W - W) / 2) ((W - W) / 2 + W)); [|lia].
    destruct (Z.leb_spec ((Float.to_int (Float.round q) - H) / 2)
                ((Float.to_int (Float.round q) - H) / 2 + H)); [|lia]. simpl.
    split; [reflexivity|].
    rewrite Z.sub_diag. change (0 / 2) with 0.
    pose proof (Z.div_mod (Float.to_int (Float.round q) - H) 2 ltac:(lia)).
    pose proof (Z.mod_pos_bound (Float.to_int (Float.round q) - H) 2 ltac:(lia)).
    repeat split; lia. }
  - (* wider than the target: the height is exact *)
    assert (Hrt : (xt <= r)%Q).
    { apply Qnot_lt_le. intros Hlt'.
      assert (Hlt : (t < r)%Q).
      { apply Qnot_le_lt. intros Hle. apply Qle_bool_iff in Hle. congruence. }
      pose proof (round_pos_mono r xt Hr0 ltac:(lra)) as Hm.
      rewrite <- Ht in Hm. lra. }
    set (p := Float.mul (Float.of_int H) r).
    assert (Hnw : W <= Float.to_int p).
    { apply to_int_ge; [lia|]. unfold p, Float.mul.
      assert (HWp : (inject_Z W <= Float.of_int H * r)%Q) by (rewrite EH; nra).
      rewrite round_positive by lra. rewrite <- HWexact.
      apply round_pos_mono; [done|exact HWp]. }
    exists (Float.to_int p), H, ((Float.to_int p - W) / 2), ((H - H) / 2).
    unfold resize. simpl.
    destruct (Z.leb_spec 1 (Float.to_int p)); [|lia].
    destruct (Z.leb_spec 1 H); [|lia]. simpl.
    destruct (Z.leb_spec ((Float.to_int p - W) / 2) ((Float.to_int p - W) / 2 + W));
      [|lia].
    destruct (Z.leb_spec ((H - H) / 2) ((H - H) / 2 + H)); [|lia]. simpl.
    split; [reflexivity|].
    rewrite Z.sub_diag. change (0 / 2) with 0.
    pose proof (Z.div_mod (Float.to_int p - W) 2 ltac:(lia)).
    pose proof (Z.mod_pos_bound (Float.to_int p - W) 2 ltac:(lia)).
    repeat split; lia.
Qed.

(** X22: an image without extent is refused. When the source image has
    width 0 or height 0, or the target height is 0, the function returns
    nothing: one of the two divisions raises [ZeroDivisionError], or the
    division by the ratio 0.0 does, or [resize] refuses the width 0. *)
Theorem resize_and_crop_image_zero_side (image : Image) (W H : Z) :
  width image = 0 \/ height image = 0 \/ H = 0 ->
  resize_and_crop_image image (W, H) = None.
Proof.
  intros Hz. unfold resize_and_crop_image, Float.truediv.
  destruct (Z.eqb_spec (height image) 0) as [|Hh]; [done|].
  destruct (Z.eqb_spec H 0) as [|HH]; [done|].
  destruct Hz as [Hw|[?|?]]; [|done..].
  rewrite Hw. simpl.
  assert (E0 : Float.round (inject_Z 0 / inject_Z (height image)) = 0%Q).
  { unfold Float.round. by destruct (height image). }
  rewrite E0.
  destruct (Float.gt 0 _); simpl; [|done].
  assert (E1 : Float.to_int (Float.mul (Float.of_int H) 0) = 0).
  { unfold Float.mul, Float.round. simpl. by rewrite Z.mul_0_r. }
  rewrite E1. reflexivity.
Qed.

(** * The properties at concrete inputs *)

Example main_fresh : main None [] ∅ (fun _ => true) = Some fresh.
Proof. reflexivity. Qed.

Example main_small :
  main (Some {["max_images" := JInt 2]}) [] ∅ (fun _ => true) = Some small.
Proof. reflexivity. Qed.

Lemma fresh_reachable : reachable true example_open fresh.
Proof. exists None, [], ∅, (fun _ => true), fresh, []. by split. Defined.

Lemma small_reachable : reachable true example_open small.
Proof.
  exists (Some {["max_images" := JInt 2]}), [], ∅, (fun _ => true), small, [].
  by split.
Defined.

(** Three uploads one second apart into a collection limited to two. *)
Lemma inserts_bounded_witness :
  (forall k : nat,
     let rs := [(photo, clock 41 0, true); (photo, clock 42 0, true);
                (photo, clock 43 0, true)] in
     Z.of_nat (length (image_files (inserts true example_open small (take k rs)))) <= 2 /\
     image_files (inserts true example_open small (take k rs)) =
       most_recent 2 (image_files small ++ (identifier <$> take k rs))) /\
  image_files (inserts true example_open small
     [(photo, clock 41 0, true); (photo, clock 42 0, true);
      (photo, clock 43 0, true)])
  = ["image_20240507_090342.jpg"; "image_20240507_090343.jpg"].
Proof.
  destruct (inserts_bounded true example_open 2 small
              [(photo, clock 41 0, true); (photo, clock 42 0, true);
               (photo, clock 43 0, true)]) as [H1 H2].
  - reflexivity.
  - lia.
  - simpl. lia.
  - repeat split; vm_compute; reflexivity.
  - split; [exact H1|]. rewrite H2 by (simpl; lia). reflexivity.
Defined.

Lemma ticks_cursor_witness :
  exists s', ticks 5 gallery = Some s' /\
             current_image_index s' = 0 /\
             displayed s' = ["b.jpg"; "c.jpg"; "a.jpg"; "b.jpg"; "c.jpg"].
Proof.
  destruct (proj2 (ticks_cursor gallery 5)) as (s' & Ht & _ & Hc & _).
  - discriminate.
  - simpl. lia.
  - exists s'. split; [exact Ht|]. split; [rewrite Hc; reflexivity|].
    vm_compute in Ht. injection Ht as <-. reflexivity.
Defined.



Lemma eviction_deletes_artifacts_witness :
  let s := run true example_open small
             [Upload photo (clock 41 0) true; Upload photo (clock 42 0) true] in
  let s' := (upload_image true example_open photo (clock 43 0) true s).2 in
  image_files s' = ["image_20240507_090342.jpg"; "image_20240507_090343.jpg"] /\
  ("image_20240507_090341.jpg" ∉ uploaded_images s') /\
  (thumb_name "image_20240507_090341.jpg" ∉ thumbnails s').
Proof.
  intros s s'.
  destruct (eviction_deletes_artifacts true example_open photo (clock 43 0) true s)
    as (oldest & rest & Hl & Hf & Hu & Ht).
  - apply reachable_run, small_reachable.
  - split; [reflexivity|].
    exists (Opened 64 48), (800, 480), (JList [JInt 800; JInt 480]).
    repeat split; try reflexivity. vm_compute. by eexists.
  - exists (JInt 2). split; reflexivity.
  - vm_compute in Hl. injection Hl as <- <-.
    exact (conj Hf (conj Hu Ht)).
Defined.

Lemma upload_failure_kinds_witness :
  (upload_image false example_open iphone (clock 41 0) true fresh).1 =
    HTTPException 400 UnsupportedFormat heic_unsupported /\
  (upload_image false example_open garbage (clock 41 0) true fresh).1 =
    HTTPException 400 DecodeFailed "cannot identify image file".
Proof.
  split.
  - apply (upload_failure_kinds false example_open iphone (clock 41 0) true fresh).
    split; reflexivity.
  - apply (upload_failure_kinds false example_open garbage (clock 41 0) true fresh).
    + intros [H _]. discriminate H.
    + reflexivity.
Defined.

Lemma refused_upload_changes_nothing_witness :
  (upload_image false example_open iphone (clock 41 0) true gallery).2 = gallery.
Proof.
  destruct (proj1 (refused_upload_changes_nothing false example_open iphone
                     (clock 41 0) true gallery)
              400 UnsupportedFormat heic_unsupported
              (upload_image false example_open iphone (clock 41 0) true gallery).2)
    as [_ H].
  - reflexivity.
  - discriminate.
  - exact H.
Defined.

Lemma update_config_merges_witness :
  CONFIG (update_config {["max_images" := JInt 5]} fresh).2 !! "max_images"
    = Some (JInt 5) /\
  CONFIG (update_config {["max_images" := JInt 5]} fresh).2 !! "saturation"
    = Some (JFloat (1 # 2)).
Proof.
  destruct (update_config_merges {["max_images" := JInt 5]} fresh)
    as (_ & H1 & H2 & _).
  split.
  - apply H1. reflexivity.
  - rewrite H2 by reflexivity. reflexivity.
Defined.

(** C2, as the claim states it, fails: an update with a saturation of 1.5, a
    [max_images] of 0 and a negative [cycle_interval] is answered with
    success, and the three values are in [CONFIG] and in [config.json]
    afterwards. *)
Lemma update_config_accepts_invalid :
  let config : gmap string json :=
    <["saturation" := JFloat (3 # 2)]>
    (<["max_images" := JInt 0]> {["cycle_interval" := JInt (-5)]}) in
  let r := update_config config fresh in
  r.1 = OK "Configuration updated" None /\
  CONFIG fresh !! "saturation" = Some (JFloat (1 # 2)) /\
  CONFIG r.2 !! "saturation" = Some (JFloat (3 # 2)) /\
  CONFIG r.2 !! "max_images" = Some (JInt 0) /\
  CONFIG r.2 !! "cycle_interval" = Some (JInt (-5)) /\
  config_json r.2 = Some (CONFIG r.2) /\
  CONFIG r.2 <> CONFIG fresh.
Proof.
  repeat split; try reflexivity.
  intros H. apply (f_equal (fun m => m !! "max_images")) in H.
  vm_compute in H. discriminate H.
Qed.

(** C7 at a failing input: two uploads within the same clock second are
    both accepted and stored under the same identifier, which is then in the
    collection twice. *)
Theorem same_second_same_identifier :
  let first := (photo, clock 41 100, true) in
  let second := (photo, clock 41 900000, true) in
  let s := inserts true example_open fresh [first; second] in
  all_succeed true example_open fresh [first; second] /\
  identifier first = identifier second /\
  image_files s = ["image_20240507_090341.jpg"; "image_20240507_090341.jpg"] /\
  ~ NoDup (image_files s).
Proof.
  repeat split; try (vm_compute; reflexivity).
  vm_compute. intros H. apply NoDup_cons in H as [H _]. apply H. left.
Qed.

(** A 4000 x 3000 photo and a 6000 x 1000 panorama on the 800 x 480 panel. *)
Lemma resize_and_crop_image_size_witness :
  exists out,
    resize_and_crop_image (Opened 4000 3000) (800, 480) = Some out /\
    out = Cropped (Resized (Opened 4000 3000) (800, 600)) (0, 60, 800, 540) /\
    size out = (800, 480).
Proof.
  destruct (resize_and_crop_image_size (Opened 4000 3000) 800 480)
    as (r & t & nw & nh & out & _ & _ & _ & _ & _ & Ho & _ & Hs).
  - split; reflexivity.
  - split; reflexivity.
  - split; reflexivity.
  - split; reflexivity.
  - exists out. split; [exact Ho|]. split; [|exact Hs].
    vm_compute in Ho. by injection Ho as <-.
Defined.

Example resize_and_crop_panorama :
  resize_and_crop_image (Opened 6000 1000) (800, 480)
  = Some (Cropped (Resized (Opened 6000 1000) (2880, 480)) (1040, 0, 1840, 480)).
Proof. vm_compute. reflexivity. Qed.

Example target_ratio_800_480 :
  Float.truediv 800 480 = Some (7505999378950827 # 4503599627370496)%Q.
Proof. vm_compute. reflexivity. Qed.

(** What the shared identifier leads to with [max_images = 2]: the third
    upload evicts the identifier and deletes the one file both entries stand
    for, so the collection lists an image that is not on disk; the fourth
    upload is stored and appended, then fails with status 400 when the
    eviction tries to delete that file again. *)
Example same_second_breaks_eviction :
  let s3 := inserts true example_open small
              [(photo, clock 41 100, true); (photo, clock 41 900000, true);
               (photo, clock 42 0, true)] in
  let r := upload_image true example_open photo (clock 43 0) true s3 in
  image_files s3 = ["image_20240507_090341.jpg"; "image_20240507_090342.jpg"] /\
  elements (uploaded_images s3) = ["image_20240507_090342.jpg"] /\
  r.1 = HTTPException 400 Raised "No such file or directory" /\
  image_files r.2 = ["image_20240507_090342.jpg"; "image_20240507_090343.jpg"].
Proof. vm_compute. repeat split; reflexivity. Qed.

(** The rounding shows where source and target have the same shape: for a
    1 x 93 target the quotient [1 / (1 / 93)] comes out just below 93, the
    image is resized to 92 rows and the crop box starts one row above it;
    the result still has the size of the box. *)
Example resize_one_row_short :
  resize_and_crop_image (Opened 1 93) (1, 93)
  = Some (Cropped (Resized (Opened 1 93) (1, 92)) (0, -1, 1, 92)) /\
  (size <$> resize_and_crop_image (Opened 1 93) (1, 93)) = Some (1, 93).
Proof. vm_compute. split; reflexivity. Qed.

(** ** Startup, configuration and cycling at concrete inputs *)

(** A directory with three images and a text file, limited to two. *)
Lemma load_keeps_newest_witness :
  let listing := [("b.jpg", 20); ("notes.txt", 5); ("a.jpg", 10); ("c.JPG", 30)] in
  exists s',
    load_existing_images listing (fun _ => true)
      (initial_globals (Some {["max_images" := JInt 2]}) listing ∅) = Some s' /\
    image_files s' = ["b.jpg"; "c.JPG"].
Proof.
  intros listing.
  destruct (load_existing_images listing (fun _ => true)
              (initial_globals (Some {["max_images" := JInt 2]}) listing ∅))
    as [s'|] eqn:E; [|vm_compute in E; discriminate E].
  exists s'. split; [reflexivity|].
  destruct (load_keeps_newest listing (fun _ => true)
              (initial_globals (Some {["max_images" := JInt 2]}) listing ∅) s' 2)
    as (dropped & _ & Hf & _); [reflexivity|exact E|].
  rewrite Hf. reflexivity.
Defined.

(** Two images, one with a thumbnail, and a thumbnail generation that
    fails. *)
Lemma startup_thumbnails_witness :
  let listing := [("a.jpg", 1); ("b.jpg", 2)] in
  let thumbs : gset string := {[thumb_name "a.jpg"]} in
  exists s0,
    main None listing thumbs (fun _ => false) = Some s0 /\
    thumb_name "a.jpg" ∈ thumbnails s0 /\
    (thumb_name "b.jpg" ∉ thumbnails s0).
Proof.
  intros listing thumbs.
  destruct (main None listing thumbs (fun _ => false)) as [s0|] eqn:E;
    [|vm_compute in E; discriminate E].
  exists s0. split; [reflexivity|].
  destruct (startup_thumbnails None listing thumbs (fun _ => false) s0 E)
    as [Hsub Hiff].
  assert (Hf : image_files s0 = ["a.jpg"; "b.jpg"]).
  { vm_compute in E. injection E as <-. reflexivity. }
  split.
  - apply Hsub. apply elem_of_singleton. reflexivity.
  - intros Hin. apply (Hiff "b.jpg") in Hin.
    + destruct Hin as [Hin|Hin]; [|discriminate Hin].
      apply elem_of_singleton in Hin. apply thumb_name_inj in Hin.
      discriminate Hin.
    + rewrite Hf. apply list_elem_of_further, list_elem_of_here.
Defined.

Lemma startup_state_witness :
  current_image_index fresh = 0 /\ threads fresh = [Ready] /\
  displayed fresh = [].
Proof.
  destruct (startup_state None [] ∅ (fun _ => true) fresh)
    as (H1 & _ & H3 & _ & H5 & _); [reflexivity|].
  exact (conj H1 (conj H3 H5)).
Defined.

Lemma config_keys_always_present_witness :
  is_Some
    (CONFIG (run true example_open fresh
               [UpdateConfig {["saturation" := JFloat (3 # 2)]};
                Upload photo (clock 41 0) true]) !! "max_images").
Proof.
  apply (config_keys_always_present true example_open).
  - apply reachable_run, fresh_reachable.
  - apply list_elem_of_here.
Defined.

Lemma config_survives_restart_witness :
  exists s0,
    main (config_json (update_config {["max_images" := JInt 5]} fresh).2)
      [] ∅ (fun _ => true) = Some s0 /\
    get_config s0 !! "max_images" = Some (JInt 5).
Proof.
  destruct (main (config_json (update_config {["max_images" := JInt 5]} fresh).2)
              [] ∅ (fun _ => true)) as [s0|] eqn:E;
    [|vm_compute in E; discriminate E].
  exists s0. split; [reflexivity|].
  destruct (config_survives_restart true example_open {["max_images" := JInt 5]}
              fresh s0 [] ∅ (fun _ => true) fresh_reachable E) as [_ H].
  rewrite H. reflexivity.
Defined.


Lemma full_round_witness :
  exists s', ticks 3 gallery = Some s' /\
             displayed s' = ["b.jpg"; "c.jpg"; "a.jpg"] /\
             current_image_index s' = 1.
Proof.
  destruct (full_round gallery) as (s' & Ht & _ & Hc & Hd & _).
  - discriminate.
  - simpl. lia.
  - exists s'. split; [exact Ht|].
    split; [rewrite Hd; reflexivity|rewrite Hc; reflexivity].
Defined.

(** ** Uploads at concrete inputs *)

Lemma upload_renders_new_image_witness :
  displayed (upload_image true example_open photo (clock 41 0) true fresh).2
  = ["image_20240507_090341.jpg"].
Proof.
  pose proof (upload_renders_new_image true example_open photo (clock 41 0)
                true fresh) as H.
  cbv zeta in H. destruct H as [H _].
  destruct H as [_ Hd]; [reflexivity|]. rewrite Hd. reflexivity.
Defined.

Lemma collection_never_shrinks_witness :
  let s := run true example_open small
             [Upload photo (clock 41 0) true; Upload photo (clock 42 0) true] in
  length (image_files (upload_image true example_open photo (clock 43 0) true s).2)
  = 2%nat.
Proof.
  intros s.
  rewrite (proj2 (collection_never_shrinks true example_open s)
             photo (clock 43 0) true).
  - reflexivity.
  - split; [reflexivity|].
    exists (Opened 64 48), (800, 480), (JList [JInt 800; JInt 480]).
    repeat split; try reflexivity. vm_compute. by eexists.
  - exists (JInt 2). split; reflexivity.
Defined.

(** [max_images] set to a string by a config update. *)
Lemma upload_with_unusable_limit_witness :
  let s := (update_config {["max_images" := JStr "ten"]} fresh).2 in
  let r := upload_image true example_open photo (clock 41 0) true s in
  succeeded r.1 = false /\
  image_files r.2 = ["image_20240507_090341.jpg"] /\
  displayed r.2 = [].
Proof.
  intros s r.
  pose proof (upload_with_unusable_limit true example_open photo (clock 41 0)
                true s (JStr "ten")) as H.
  cbv zeta in H. destruct H as ((detail & Hr) & Hf & _ & Hd).
  - split; [reflexivity|].
    exists (Opened 64 48), (800, 480), (JList [JInt 800; JInt 480]).
    repeat split; try reflexivity. vm_compute. by eexists.
  - reflexivity.
  - reflexivity.
  - subst r. rewrite Hr, Hf, Hd. repeat split; reflexivity.
Defined.

Lemma upload_succeeds_iff_accepted_witness :
  ~ accepted true example_open garbage fresh.
Proof.
  intros Hacc.
  apply (upload_succeeds_iff_accepted true example_open garbage (clock 41 0)
           true fresh 10) in Hacc.
  - vm_compute in Hacc. discriminate Hacc.
  - intros p Hp. exfalso. revert Hp. apply not_elem_of_nil.
  - reflexivity.
Defined.

Lemma uploads_keep_collection_consistent_witness :
  NoDup (image_files (inserts true example_open small
           [(photo, clock 41 0, true); (photo, clock 42 0, false);
            (photo, clock 43 0, true)])).
Proof.
  apply (uploads_keep_collection_consistent true example_open small).
  - refine (bool_decide_unpack (NoDup _) _). vm_compute. exact I.
  - intros p Hp. exfalso. revert Hp. apply not_elem_of_nil.
Defined.

Lemma identifier_to_the_second_witness :
  "image_" +:+ strftime (clock 41 100) +:+ ".jpg"
  = "image_" +:+ strftime (clock 41 900000) +:+ ".jpg" /\
  "image_" +:+ strftime (clock 41 0) +:+ ".jpg"
  <> "image_" +:+ strftime (clock 42 0) +:+ ".jpg".
Proof.
  assert (Hp : forall sec us, 0 <= sec < 100 -> printable (clock sec us)).
  { intros sec us Hs. unfold printable. simpl. lia. }
  split.
  - apply (identifier_to_the_second (clock 41 100) (clock 41 900000));
      [apply Hp; lia..|reflexivity].
  - intros H.
    apply (identifier_to_the_second (clock 41 0) (clock 42 0)) in H;
      [discriminate H|apply Hp; lia..].
Defined.


Lemma get_thumbnail_answers_witness :
  (get_thumbnail "missing.jpg" true fresh).2 = fresh.
Proof.
  pose proof (get_thumbnail_answers "missing.jpg" true fresh) as H.
  cbv zeta in H. destruct H as (_ & _ & _ & _ & H & _).
  apply H. reflexivity.
Defined.

Lemma control_cycling_actions_witness :
  (control_cycling "Start" fresh).1 = HTTPException 400 Raised "Invalid action" /\
  (control_cycling "Start" fresh).2 = fresh.
Proof.
  pose proof (control_cycling_actions "Start" fresh) as H.
  cbv zeta in H. destruct H as (_ & H & _).
  apply H. reflexivity.
Defined.

(** Two images, the second one due, and an upload that evicts the first. *)
Lemma eviction_passes_over_due_image_witness :
  let s := run true example_open small
             [Upload photo (clock 41 0) true; Upload photo (clock 42 0) true;
              ThreadRuns 0] in
  let s' := (upload_image true example_open photo (clock 43 0) true s).2 in
  Py.getitem (image_files s) (current_image_index s)
  = Some "image_20240507_090342.jpg" /\
  Py.getitem (image_files s') (current_image_index s')
  = Some "image_20240507_090343.jpg".
Proof.
  intros s s'. split; [reflexivity|].
  pose proof (eviction_passes_over_due_image true example_open photo
                (clock 43 0) true s) as H.
  cbv zeta in H. destruct H as [H _].
  - split; [reflexivity|].
    exists (Opened 64 48), (800, 480), (JList [JInt 800; JInt 480]).
    repeat split; try reflexivity. vm_compute. by eexists.
  - exists (JInt 2). split; reflexivity.
  - split; vm_compute; [discriminate|reflexivity].
  - subst s'. rewrite H. reflexivity.
Defined.

(** ** The crop box at concrete inputs *)

Lemma crop_box_within_resized_witness :
  exists new_width new_height left top,
    resize_and_crop_image (Opened 1 93) (1, 93)
    = Some (Cropped (Resized (Opened 1 93) (new_width, new_height))
              (left, top, left + 1, top + 93)) /\
    0 <= left /\ left + 1 <= new_width /\
    top = -1 /\ top + 93 <= new_height.
Proof.
  destruct (crop_box_within_resized (Opened 1 93) 1 93)
    as (nw & nh & l & t & Ho & Hl & Hr & _ & Hb & _).
  - split; reflexivity.
  - split; reflexivity.
  - split; reflexivity.
  - split; reflexivity.
  - exists nw, nh, l, t. split; [exact Ho|]. split; [exact Hl|].
    split; [exact Hr|]. split; [|exact Hb].
    vm_compute in Ho. by injection Ho as _ _ _ <-.
Defined.

Lemma resize_and_crop_image_zero_side_witness :
  resize_and_crop_image (Opened 0 48) (800, 480) = None.
Proof.
  apply (resize_and_crop_image_zero_side (Opened 0 48) 800 480).
  left. reflexivity.
Defined.

Lemma heic_support_decides_refusal_witness :
  upload_image false example_open iphone (clock 41 0) true gallery
  = (HTTPException 400 UnsupportedFormat heic_unsupported, gallery) /\
  (upload_image true example_open iphone (clock 41 0) true gallery).1
  <> HTTPException 400 UnsupportedFormat heic_unsupported.
Proof.
  split.
  - apply (proj2 (heic_support_decides_refusal false example_open));
      reflexivity.
  - apply (proj1 (heic_support_decides_refusal true example_open)).
    reflexivity.
Defined.
